(** * PRAM search step counts (paraCompEx1.py)

    A shallow embedding of [seq_search], the three PRAM search variants
    and the [speedups] aggregator, with the properties of their indices
    and step counts.

    Modelling conventions.
    - A Python [str] is a list of code points ([Z]); a one-character
      string is a one-element list.  [len] is the length as a Python int.
    - Python ints are [Z].
    - [math.ceil (n / p)] and [math.ceil (math.log2 p)] are modelled by
      the exact integer ceiling of the quotient and of the binary
      logarithm.  The program goes through a binary64 float.  For the
      quotient the float is modelled too ([float_ceil_div]) and proved to
      give the exact ceiling for n < 2^53 and 1 <= p < 2^1075, and 0
      from p = n * 2^1075 on.  [math.log2] is the platform's libm, which
      is not modelled: the exact ceiling is the program's up to
      p = 2^48, and from p = 2^49 + 1 on the program may return one step
      less.  A theorem that gives a step count its closed form carries
      these bounds.
    - The float stored as a speedup is an exact rational or [+inf].
    - Exceptions are the [Raise] results of a small error monad.
    - The draws of the global [random] generator are arguments. *)

From Stdlib Require Import ZArith QArith Lia.
From stdpp Require Import base tactics option list strings gmap.

Local Open Scope Z_scope.

(** ** Python values *)

Abbreviation str := (list Z).

Definition len (s : str) : Z := Z.of_nat (length s).

Inductive exn : Type :=
  | ZeroDivisionError
  | ValueError
  | IndexError
  | AssertionError (msg : string).

Inductive result (A : Type) : Type :=
  | Ok (a : A)
  | Raise (e : exn).

Arguments Ok {A} a.
Arguments Raise {A} e.

(** The error monad: [x ← r; k] runs [k] on the value of [r] and
    propagates the exception of [r]. *)
#[global] Instance result_ret : MRet result := @Ok.

#[global] Instance result_bind : MBind result := λ A B k r,
  match r with
  | Ok a => k a
  | Raise e => Raise e
  end.

(** A float: the speedups are quotients of two ints, [1.0] or
    [float('inf')]. *)
Inductive pyfloat : Type :=
  | Fin (q : Q)
  | Inf.

(** [a / b] on ints (true division). *)
Definition true_div (a b : Z) : result pyfloat :=
  if b =? 0 then Raise ZeroDivisionError
  else Ok (Fin (inject_Z a / inject_Z b)%Q).

(** [ceil(n / p)]: the quotient is rounded towards plus infinity, whatever
    the sign of [p]; [n / p] raises for [p = 0].  This is the exact
    ceiling, the program's for n < 2^53 and 1 <= p < 2^1075. *)
Definition ceil_div (n p : Z) : result Z :=
  if p =? 0 then Raise ZeroDivisionError
  else Ok (- ((- n) / p)).

(** [ceil(log2(p))], only ever called with [p > 1].  This is the exact
    ceiling, the program's for p <= 2^48. *)
Definition ceil_log2 (p : Z) : Z := Z.log2_up p.

(** [s.startswith(t)] *)
Fixpoint startswith (s t : str) : bool :=
  match t, s with
  | [], _ => true
  | _ :: _, [] => false
  | a :: t', b :: s' => (a =? b) && startswith s' t'
  end.

(** [s.find(t)]: the lowest index at which [t] occurs as a substring of
    [s], or [-1].  [i] is the index of the head of [s] in the whole
    string. *)
Fixpoint find_from (s t : str) (i : Z) : Z :=
  match s with
  | [] => if startswith [] t then i else -1
  | _ :: s' => if startswith s t then i else find_from s' t (i + 1)
  end.

Definition find (s t : str) : Z := find_from s t 0.

(** [ch == target] for a character [ch] of the string: [ch] is itself a
    string of length one. *)
Definition ch_eqb (ch : Z) (target : str) : bool :=
  match target with
  | [c] => ch =? c
  | _ => false
  end.

(** ** The searches *)

(** The [for i, ch in enumerate(s)] loop of [seq_search], from the state
    [(i, steps)] on the rest of the string. *)
Fixpoint seq_search_loop (s target : str) (i steps : Z) : Z * Z :=
  match s with
  | [] => (-1, steps)
  | ch :: s' =>
      let steps := steps + 1 in
      if ch_eqb ch target then (i, steps)
      else seq_search_loop s' target (i + 1) steps
  end.

Definition seq_search (s target : str) : Z * Z :=
  seq_search_loop s target 0 0.

Definition pram_erew_search (s target : str) (p : Z) : result (Z * Z) :=
  let n := len s in
  search_steps ← ceil_div n p;
  let idx := find s target in
  let reduction_steps := if p >? 1 then ceil_log2 p else 0 in
  Ok (idx, search_steps + reduction_steps).

Definition pram_crew_search (s target : str) (p : Z) : result (Z * Z) :=
  let n := len s in
  search_steps ← ceil_div n p;
  let idx := find s target in
  let reduction_steps := if p >? 1 then ceil_log2 p else 0 in
  Ok (idx, search_steps + reduction_steps).

(** [rule] is a parameter of the source (default ['priority']); the body
    never reads it. *)
Definition pram_crcw_search (s target : str) (p : Z) (rule : string)
  : result (Z * Z) :=
  let n := len s in
  let idx := find s target in
  steps ← ceil_div n p;
  Ok (idx, steps).

Definition priority : string := "priority".

(** ** Input generation *)

(** [string.ascii_letters + string.digits] *)
Definition base : str :=
  seqZ 97 26 ++ seqZ 65 26 ++ seqZ 48 10.

(** [chr(c)] *)
Definition chr (c : Z) : result Z :=
  if (0 <=? c) && (c <=? 1114111) then Ok c else Raise ValueError.

Fixpoint mapM {A B : Type} (f : A -> result B) (l : list A) : result (list B) :=
  match l with
  | [] => Ok []
  | a :: l' => b ← f a; bs ← mapM f l'; Ok (b :: bs)
  end.

(** [l[:n]], also for a negative [n]. *)
Definition slice_to {A : Type} (l : list A) (n : Z) : list A :=
  if n <? 0 then take (Z.to_nat (Z.of_nat (length l) + n)) l
  else take (Z.to_nat n) l.

(** [s[i]], also for a negative [i]. *)
Definition index (s : str) (i : Z) : result Z :=
  let j := if i <? 0 then len s + i else i in
  if j <? 0 then Raise IndexError
  else match s !! Z.to_nat j with
       | Some c => Ok c
       | None => Raise IndexError
       end.

(** The global generator: [shuffle l] is the order [random.shuffle]
    leaves [l] in, [randrange n] the value drawn below [n]. *)
Record Random : Type := {
  shuffle : str -> str;
  draw : Z -> Z
}.

Definition randrange (rnd : Random) (n : Z) : result Z :=
  if n <=? 0 then Raise ValueError else Ok (draw rnd n).

Definition generate_unique_string (rnd : Random) (n : Z) : result str :=
  if n <=? len base then
    Ok (slice_to (shuffle rnd base) n)
  else
    extra ← mapM (fun i => chr (9472 + i)) (seqZ 0 (n - len base));
    Ok (shuffle rnd base ++ extra).

(** ** The aggregator *)

(** The nested [spd] of [speedups]. *)
Definition spd (t_seq ts : Z) : result pyfloat :=
  if ts >? 0 then true_div t_seq ts else Ok Inf.

(** The chained comparison of the assertion. *)
Definition consistent (idx_seq idx_erew idx_crew idx_crcw : Z) : bool :=
  ((idx_seq =? idx_erew) && (idx_erew =? idx_crew) && (idx_crew =? idx_crcw))
  || (idx_seq =? -1).

(** [speedups] from the four searches on, for the string and target that
    were drawn. *)
Definition speedups_on (s target : str) (p : Z)
  : result (gmap string (Z * pyfloat * Z)) :=
  let '(idx_seq, t_seq) := seq_search s target in
  '(idx_erew, t_erew) ← pram_erew_search s target p;
  '(idx_crew, t_crew) ← pram_crew_search s target p;
  '(idx_crcw, t_crcw) ← pram_crcw_search s target p priority;
  if negb (consistent idx_seq idx_erew idx_crew idx_crcw) then
    Raise (AssertionError "Inconsistent search indices")
  else
    sp_erew ← spd t_seq t_erew;
    sp_crew ← spd t_seq t_crew;
    sp_crcw ← spd t_seq t_crcw;
    Ok (<["Sequential" := (idx_seq, Fin 1, t_seq)]>
        (<["EREW" := (idx_erew, sp_erew, t_erew)]>
         (<["CREW" := (idx_crew, sp_crew, t_crew)]>
          (<["CRCW" := (idx_crcw, sp_crcw, t_crcw)]> ∅)))).

Definition speedups (rnd : Random) (n p : Z) (target_present : bool)
  : result (gmap string (Z * pyfloat * Z)) :=
  s ← generate_unique_string rnd n;
  target ← (if target_present
             then r ← randrange rnd n; c ← index s r; Ok [c]
             else Ok [35]);
  speedups_on s target p.

(** ** What the claims speak of *)

(** [t] occurs in [s] at position [k]: [s[k : k + len(t)] == t]. *)
Definition occurs_at (s t : str) (k : nat) : Prop :=
  ∃ pre post : str, s = pre ++ t ++ post ∧ length pre = k.

(** [idx] is the position of the first occurrence of [t] in [s], or [-1]
    when [t] occurs nowhere. *)
Definition first_occurrence (s t : str) (idx : Z) : Prop :=
  (∃ k : nat, idx = Z.of_nat k ∧ occurs_at s t k
              ∧ ∀ j : nat, (j < k)%nat → ¬ occurs_at s t j)
  ∨ (idx = -1 ∧ ∀ j : nat, ¬ occurs_at s t j).

(** The comparison [s[k] == target] of the sequential scan succeeds. *)
Definition matches_at (s target : str) (k : nat) : Prop :=
  ∃ ch : Z, s !! k = Some ch ∧ target = [ch].

(** [c] is the ceiling of [n / p], for a positive [p]. *)
Definition ceil_quot_spec (n p c : Z) : Prop :=
  (c - 1) * p < n ∧ n ≤ c * p.

(** [r] is [ceil(log2(p))] if [p > 1] else [0]. *)
Definition reduction_spec (p r : Z) : Prop :=
  (p ≤ 1 ∧ r = 0) ∨ (1 < p ∧ 2 ^ (r - 1) < p ∧ p ≤ 2 ^ r).

(** The value of the local [reduction_steps] of the EREW and CREW
    searches. *)
Definition reduction_steps (p : Z) : Z := if p >? 1 then ceil_log2 p else 0.

(** [sp] is the speedup the aggregator stores for a model that took [ts]
    steps: the quotient, or [+inf] when [ts] is not positive. *)
Definition speedup_spec (t_seq ts : Z) (sp : pyfloat) : Prop :=
  (0 < ts ∧ sp = Fin (inject_Z t_seq / inject_Z ts)%Q) ∨ (ts ≤ 0 ∧ sp = Inf).

(** The results of the three PRAM searches on one input: index [idx],
    [c] scan steps and, for EREW and CREW, [r] reduction steps more. *)
Definition pram_results (s target : str) (p : Z) (rule : string)
    (idx c r : Z) : Prop :=
  pram_erew_search s target p = Ok (idx, c + r)
  ∧ pram_crew_search s target p = Ok (idx, c + r)
  ∧ pram_crcw_search s target p rule = Ok (idx, c).

(** A search signals an error for every processor count below one. *)
Definition rejects_below_one (f : str → str → Z → result (Z * Z)) : Prop :=
  ∀ (s target : str) (p : Z), p < 1 → ∃ e : exn, f s target p = Raise e.

(** The steps of a search do not grow with the number of processors. *)
Definition steps_nonincreasing (f : str → str → Z → result (Z * Z)) : Prop :=
  ∀ (s target : str) (p1 p2 : Z) (r1 r2 : Z * Z),
    1 ≤ len s → 1 ≤ p1 → p1 < p2 →
    f s target p1 = Ok r1 → f s target p2 = Ok r2 → r2.2 ≤ r1.2.

(** The strings of the scenarios of the specification. *)
Definition ABCDEFGH : str := [65; 66; 67; 68; 69; 70; 71; 72].
Definition ABCDE : str := [65; 66; 67; 68; 69].

(** A generator that leaves the order alone and always draws [0]. *)
Definition first_rnd : Random := {| shuffle := λ l, l; draw := λ _, 0 |}.

(** ** The script *)

(** How the script ends before it plots: with a value, with an exception
    of [speedups], or with the KeyError of a lookup [results[m]]. *)
Inductive outcome (A : Type) : Type :=
  | Done (a : A)
  | Failed (e : exn)
  | KeyError (key : string).

Arguments Done {A} a.
Arguments Failed {A} e.
Arguments KeyError {A} key.

Definition labels : list string := ["EREW"; "CREW"; "CRCW"].

(** [[results[m][1] for m in ms]] *)
Fixpoint speedup_column (results : gmap string (Z * pyfloat * Z))
    (ms : list string) : outcome (list pyfloat) :=
  match ms with
  | [] => Done []
  | m :: ms' =>
      match results !! m with
      | None => KeyError m
      | Some (_, sp, _) =>
          match speedup_column results ms' with
          | Done vals => Done (sp :: vals)
          | Failed e => Failed e
          | KeyError key => KeyError key
          end
      end
  end.

(** The script up to [spd_vals], the heights of the bars it plots:
    n = 256, p = n, and a target that is present. *)
Definition main_spd_vals (rnd : Random) : outcome (list pyfloat) :=
  let n := 256 in
  let p := n in
  match speedups rnd n p true with
  | Raise e => Failed e
  | Ok results => speedup_column results labels
  end.

(** ** What the rest of the program is measured against *)

(** The generator behaves as [random] does: [shuffle] permutes the list
    it is given, and the value drawn below a positive [n] lies in
    [0, n). *)
Definition fair (rnd : Random) : Prop :=
  (∀ l : str, shuffle rnd l ≡ₚ l) ∧ (∀ n : Z, 0 < n → 0 ≤ draw rnd n < n).

(** The longest string [generate_unique_string] builds: one character
    more and [chr] is asked for a code point past 0x10FFFF. *)
Definition max_unique_len : Z := 1104702.

(** The four keys of the mapping [speedups] returns. *)
Definition model_names : gset string :=
  {["Sequential"; "EREW"; "CREW"; "CRCW"]}.

(** ** The float behind [ceil(n / p)]

    [n / p] on two ints is the binary64 number nearest to the quotient,
    ties going to the even mantissa: [m * 2 ^ e] with [e >= -1074], and
    [m] of 53 bits unless the quotient is subnormal.  [math.ceil] of
    that float is computed below, to be compared with [ceil_div]. *)

(** [a / b * 2 ^ (- g)] as a fraction. *)
Definition scaled (a b g : Z) : Z * Z :=
  (a * 2 ^ Z.max 0 (- g), b * 2 ^ Z.max 0 g).

(** The integer nearest to [num / den] for [den > 0], ties to even. *)
Definition round_half_even (num den : Z) : Z :=
  let q := num / den in
  let r := num mod den in
  if 2 * r <? den then q
  else if den <? 2 * r then q + 1
  else if Z.even q then q else q + 1.

(** [floor(log2(a / b))] for positive [a] and [b]. *)
Definition quot_log2 (a b : Z) : Z :=
  let g := Z.log2 a - Z.log2 b in
  if (scaled a b g).1 <? (scaled a b g).2 then g - 1 else g.

(** The binary64 nearest to [a / b] for positive [a] and [b], as
    mantissa and exponent. *)
Definition nearest_binary64 (a b : Z) : Z * Z :=
  let e := Z.max (quot_log2 a b - 52) (-1074) in
  (round_half_even (scaled a b e).1 (scaled a b e).2, e).

Inductive float_ceiling : Type :=
  | Ceiling (c : Z)
  | DivisionByZero
  | Overflow.

(** [ceil(n / p)] through the float: ZeroDivisionError for [p = 0],
    OverflowError when the quotient is too large for a float. *)
Definition float_ceil_div (n p : Z) : float_ceiling :=
  if p =? 0 then DivisionByZero
  else if n =? 0 then Ceiling 0
  else
    let '(m, e) := nearest_binary64 (Z.abs n) (Z.abs p) in
    if 0 <=? e then
      if 2 ^ 1024 <=? m * 2 ^ e then Overflow
      else Ceiling (Z.sgn n * Z.sgn p * (m * 2 ^ e))
    else if 0 <? Z.sgn n * Z.sgn p then Ceiling (- ((- m) / 2 ^ (- e)))
    else Ceiling (- (m / 2 ^ (- e))).

(** ** Occurrences and [find] *)

Lemma startswith_prefix (t s : str) :
  startswith s t = true ↔ t `prefix_of` s.
Proof.
  revert s; induction t as [|a t IH]; intros [|b s]; simpl.
  - split; [intros _; apply prefix_nil | done].
  - split; [intros _; apply prefix_nil | done].
  - split; [done | intros H; by apply prefix_nil_not in H].
  - rewrite andb_true_iff, Z.eqb_eq, IH. split.
    + intros [-> H]. by apply prefix_cons.
    + intros H. split; [by apply prefix_cons_inv_1 in H
                       | by apply prefix_cons_inv_2 in H].
Qed.

Lemma occurs_at_0 (s t : str) : occurs_at s t 0 ↔ t `prefix_of` s.
Proof.
  split.
  - intros ([|] & post & -> & Hl); [|done]. by exists post.
  - intros [post ->]. by exists [], post.
Qed.

Lemma occurs_at_S (a : Z) (s t : str) (k : nat) :
  occurs_at (a :: s) t (S k) ↔ occurs_at s t k.
Proof.
  split.
  - intros ([|b pre] & post & Hs & Hl); [done|].
    simpl in *. exists pre, post. split; [congruence | lia].
  - intros (pre & post & -> & Hl). exists (a :: pre), post.
    split; [done | simpl; lia].
Qed.

Lemma occurs_at_nil (t : str) (k : nat) : occurs_at [] t k → t = [] ∧ k = 0%nat.
Proof.
  intros (pre & post & Hs & Hl). symmetry in Hs.
  apply app_eq_nil in Hs as [-> Hs]. apply app_eq_nil in Hs as [-> _].
  by simpl in Hl.
Qed.

Lemma find_from_spec (s t : str) (i : Z) :
  (∃ k : nat, find_from s t i = i + Z.of_nat k ∧ occurs_at s t k
              ∧ ∀ j : nat, (j < k)%nat → ¬ occurs_at s t j)
  ∨ (find_from s t i = -1 ∧ ∀ j : nat, ¬ occurs_at s t j).
Proof.
  revert i; induction s as [|a s IH]; intros i.
  - simpl. destruct t as [|b t]; simpl.
    + left. exists 0%nat. split; [lia|]. split; [by exists [], [] | lia].
    + right. split; [done|]. intros j H. by apply occurs_at_nil in H as [? _].
  - cbn [find_from]. destruct (startswith (a :: s) t) eqn:Hsw.
    + left. exists 0%nat. split; [lia|]. split; [|lia].
      by apply occurs_at_0, startswith_prefix.
    + assert (¬ occurs_at (a :: s) t 0) as H0.
      { rewrite occurs_at_0, <- startswith_prefix. congruence. }
      destruct (IH (i + 1)) as [(k & Hf & Hk & Hmin) | [Hf Hnone]].
      * left. exists (S k). split; [lia|]. split; [by apply occurs_at_S|].
        intros [|j] Hj; [done|]. rewrite occurs_at_S. apply Hmin. lia.
      * right. split; [done|]. intros [|j]; [done|].
        rewrite occurs_at_S. apply Hnone.
Qed.

Lemma find_first_occurrence (s t : str) : first_occurrence s t (find s t).
Proof.
  unfold find. destruct (find_from_spec s t 0) as [(k & Hf & H) | H].
  - left. exists k. split; [lia | done].
  - by right.
Qed.

Lemma first_occurrence_unique (s t : str) (i j : Z) :
  first_occurrence s t i → first_occurrence s t j → i = j.
Proof.
  intros [(k & -> & Hk & Hmin) | [-> Hn]] [(k' & -> & Hk' & Hmin') | [-> Hn']];
    try done; try (by exfalso; eapply Hn); try (by exfalso; eapply Hn').
  destruct (Nat.lt_trichotomy k k') as [H | [-> | H]]; [|done|].
  - by apply Hmin' in H.
  - by apply Hmin in H.
Qed.

(** A one-character target occurs where the string holds that character. *)
Lemma occurs_at_single (s : str) (c : Z) (k : nat) :
  occurs_at s [c] k ↔ s !! k = Some c.
Proof.
  split.
  - intros (pre & post & -> & <-). by rewrite lookup_app_r, Nat.sub_diag.
  - intros H. apply list_elem_of_split_length in H as (pre & post & -> & ->).
    by exists pre, post.
Qed.

Lemma matches_at_single (s : str) (c : Z) (k : nat) :
  matches_at s [c] k ↔ s !! k = Some c.
Proof.
  split.
  - intros (ch & H & [= ->]). done.
  - intros H. by exists c.
Qed.

(** ** The sequential scan *)

Lemma ch_eqb_true (ch : Z) (target : str) :
  ch_eqb ch target = true ↔ target = [ch].
Proof.
  destruct target as [|c [|c' t]]; simpl; [done| |done].
  rewrite Z.eqb_eq. split; congruence.
Qed.

Lemma matches_at_0 (ch : Z) (s target : str) :
  matches_at (ch :: s) target 0 ↔ target = [ch].
Proof.
  split.
  - intros (c & [= ->] & ->). done.
  - intros ->. by exists ch.
Qed.

Lemma matches_at_S (ch : Z) (s target : str) (k : nat) :
  matches_at (ch :: s) target (S k) ↔ matches_at s target k.
Proof. done. Qed.

Lemma seq_search_loop_spec (s target : str) (i steps : Z) :
  (∃ k : nat, matches_at s target k
              ∧ (∀ j : nat, (j < k)%nat → ¬ matches_at s target j)
              ∧ seq_search_loop s target i steps
                = (i + Z.of_nat k, steps + Z.of_nat k + 1))
  ∨ ((∀ j : nat, ¬ matches_at s target j)
     ∧ seq_search_loop s target i steps = (-1, steps + len s)).
Proof.
  revert i steps; induction s as [|ch s IH]; intros i steps.
  - right. split; [by intros j (c & H & _)|].
    simpl. f_equal. unfold len. simpl. lia.
  - cbn [seq_search_loop]. destruct (ch_eqb ch target) eqn:Heq.
    + left. exists 0%nat. apply ch_eqb_true in Heq.
      split; [by apply matches_at_0|]. split; [lia|]. f_equal; lia.
    + assert (¬ matches_at (ch :: s) target 0) as H0.
      { rewrite matches_at_0, <- ch_eqb_true. congruence. }
      destruct (IH (i + 1) (steps + 1)) as [(k & Hk & Hmin & ->) | [Hn ->]].
      * left. exists (S k). split; [done|]. split.
        -- intros [|j] Hj; [done|]. rewrite matches_at_S. apply Hmin. lia.
        -- f_equal; lia.
      * right. split.
        -- intros [|j]; [done|]. rewrite matches_at_S. apply Hn.
        -- f_equal. unfold len. simpl length. lia.
Qed.

(** ** Ceilings *)

Lemma ceil_div_nonzero (n p : Z) :
  p ≠ 0 → ceil_div n p = Ok (- ((- n) / p)).
Proof. intros Hp. unfold ceil_div. by rewrite (proj2 (Z.eqb_neq p 0) Hp). Qed.

Lemma ceil_div_zero (n : Z) : ceil_div n 0 = Raise ZeroDivisionError.
Proof. done. Qed.

Lemma ceil_quot_spec_div (n p : Z) :
  0 < p → ceil_quot_spec n p (- ((- n) / p)).
Proof.
  intros Hp. unfold ceil_quot_spec.
  pose proof (Z.div_mod (- n) p ltac:(lia)) as Hdm.
  pose proof (Z.mod_pos_bound (- n) p Hp) as Hb.
  nia.
Qed.

Lemma ceil_quot_spec_unique (n p c c' : Z) :
  0 < p → ceil_quot_spec n p c → ceil_quot_spec n p c' → c = c'.
Proof. unfold ceil_quot_spec. intros Hp [H1 H2] [H3 H4]. nia. Qed.

Lemma ceil_quot_spec_nonneg (n p c : Z) :
  0 < p → 0 ≤ n → ceil_quot_spec n p c → 0 ≤ c.
Proof. unfold ceil_quot_spec. intros Hp Hn [H1 H2]. nia. Qed.

Lemma ceil_quot_spec_pos (n p c : Z) :
  0 < p → 1 ≤ n → ceil_quot_spec n p c → 1 ≤ c.
Proof. unfold ceil_quot_spec. intros Hp Hn [H1 H2]. nia. Qed.

(** More processors never lengthen the scan. *)
Lemma ceil_quot_spec_antitone (n p1 p2 c1 c2 : Z) :
  0 ≤ n → 0 < p1 → p1 ≤ p2 →
  ceil_quot_spec n p1 c1 → ceil_quot_spec n p2 c2 → c2 ≤ c1.
Proof.
  unfold ceil_quot_spec. intros Hn Hp1 Hp [H1 H2] [H3 H4].
  assert (0 ≤ c1) as Hc1 by nia.
  destruct (Z.le_gt_cases c2 c1) as [|Hlt]; [done | exfalso].
  assert (c1 * p1 ≤ c1 * p2) by (apply Z.mul_le_mono_nonneg_l; lia).
  assert (c1 * p2 ≤ (c2 - 1) * p2) by (apply Z.mul_le_mono_nonneg_r; lia).
  lia.
Qed.

(** For a negative [p] the quotient is not positive. *)
Lemma ceil_div_neg_nonpos (n p : Z) : 0 ≤ n → p < 0 → - ((- n) / p) ≤ 0.
Proof.
  intros Hn Hp.
  pose proof (Z.div_mod (- n) p ltac:(lia)) as Hdm.
  pose proof (Z.mod_neg_bound (- n) p Hp) as Hb.
  nia.
Qed.

Lemma reduction_spec_steps (p : Z) : reduction_spec p (reduction_steps p).
Proof.
  unfold reduction_spec, reduction_steps, ceil_log2.
  destruct (Z.gtb_spec p 1) as [Hp | Hp]; [right | left; lia].
  pose proof (Z.log2_up_spec p Hp) as H.
  replace (Z.log2_up p - 1) with (Z.pred (Z.log2_up p)) by lia. lia.
Qed.

Lemma reduction_spec_unique (p r r' : Z) :
  reduction_spec p r → reduction_spec p r' → r = r'.
Proof.
  intros [[? ->] | (Hp & Hlo & Hhi)] [[? ->] | (Hp' & Hlo' & Hhi')]; try lia.
  assert (0 < r).
  { destruct (Z.lt_trichotomy r 0) as [H | [-> | H]]; [|simpl in Hhi; lia|done].
    rewrite Z.pow_neg_r in Hhi; lia. }
  assert (0 < r').
  { destruct (Z.lt_trichotomy r' 0) as [H' | [-> | H']]; [|simpl in Hhi'; lia|done].
    rewrite Z.pow_neg_r in Hhi'; lia. }
  destruct (Z.lt_trichotomy r r') as [Hlt | [-> | Hlt]]; [|done|].
  - assert (2 ^ r ≤ 2 ^ (r' - 1)) by (apply Z.pow_le_mono_r; lia). lia.
  - assert (2 ^ r' ≤ 2 ^ (r - 1)) by (apply Z.pow_le_mono_r; lia). lia.
Qed.

Lemma reduction_steps_one : reduction_steps 1 = 0.
Proof. done. Qed.

Lemma reduction_steps_pos (p : Z) : 1 < p → 1 ≤ reduction_steps p.
Proof.
  intros Hp. unfold reduction_steps, ceil_log2.
  destruct (Z.gtb_spec p 1); [|lia].
  pose proof (Z.log2_up_pos p Hp). lia.
Qed.

Lemma reduction_steps_mono (p1 p2 : Z) :
  p1 ≤ p2 → reduction_steps p1 ≤ reduction_steps p2.
Proof.
  intros Hp. unfold reduction_steps, ceil_log2.
  destruct (Z.gtb_spec p1 1), (Z.gtb_spec p2 1); try lia.
  - by apply Z.log2_up_le_mono.
  - apply Z.log2_up_nonneg.
Qed.

(** ** The three PRAM searches, unfolded *)

Lemma pram_erew_search_nonzero (s target : str) (p : Z) :
  p ≠ 0 →
  pram_erew_search s target p
  = Ok (find s target, - ((- len s) / p) + reduction_steps p).
Proof. intros Hp. unfold pram_erew_search. by rewrite ceil_div_nonzero. Qed.

Lemma pram_crew_search_nonzero (s target : str) (p : Z) :
  p ≠ 0 →
  pram_crew_search s target p
  = Ok (find s target, - ((- len s) / p) + reduction_steps p).
Proof. intros Hp. unfold pram_crew_search. by rewrite ceil_div_nonzero. Qed.

Lemma pram_crcw_search_nonzero (s target : str) (p : Z) (rule : string) :
  p ≠ 0 →
  pram_crcw_search s target p rule = Ok (find s target, - ((- len s) / p)).
Proof. intros Hp. unfold pram_crcw_search. by rewrite ceil_div_nonzero. Qed.

Lemma len_nonneg (s : str) : 0 ≤ len s.
Proof. unfold len. lia. Qed.

(** ** The sequential index against [find] *)

Lemma seq_search_cases (s target : str) :
  (∃ k : nat, matches_at s target k
              ∧ (∀ j : nat, (j < k)%nat → ¬ matches_at s target j)
              ∧ seq_search s target = (Z.of_nat k, Z.of_nat k + 1))
  ∨ ((∀ j : nat, ¬ matches_at s target j)
     ∧ seq_search s target = (-1, len s)).
Proof.
  unfold seq_search.
  destruct (seq_search_loop_spec s target 0 0) as [(k & Hk & Hmin & ->) | [Hn ->]].
  - left. exists k. split; [done|]. split; [done|]. f_equal.
  - right. split; [done|]. f_equal.
Qed.

Lemma seq_search_single (s : str) (c : Z) :
  first_occurrence s [c] (seq_search s [c]).1.
Proof.
  destruct (seq_search_cases s [c]) as [(k & Hk & Hmin & ->) | [Hn ->]]; simpl.
  - left. exists k. split; [done|]. split.
    + by apply occurs_at_single, matches_at_single.
    + intros j Hj. rewrite occurs_at_single, <- matches_at_single. by apply Hmin.
  - right. split; [done|]. intros j.
    rewrite occurs_at_single, <- matches_at_single. apply Hn.
Qed.

Lemma seq_search_find_single (s : str) (c : Z) :
  (seq_search s [c]).1 = find s [c].
Proof.
  eapply first_occurrence_unique;
    [apply seq_search_single | apply find_first_occurrence].
Qed.

(** Whatever the target string, the sequential index is that of [find],
    or it is [-1]. *)
Lemma seq_search_find_or_absent (s target : str) :
  (seq_search s target).1 = find s target ∨ (seq_search s target).1 = -1.
Proof.
  destruct (seq_search_cases s target) as [(k & (ch & _ & ->) & _) | [_ ->]].
  - left. apply seq_search_find_single.
  - by right.
Qed.

Lemma consistent_find (s target : str) :
  consistent (seq_search s target).1 (find s target) (find s target)
             (find s target) = true.
Proof.
  unfold consistent. rewrite !Z.eqb_refl, !andb_true_r.
  destruct (seq_search_find_or_absent s target) as [-> | ->].
  - by rewrite Z.eqb_refl.
  - by rewrite orb_true_r.
Qed.

(** ** The aggregator, unfolded *)

Lemma spd_spec (t_seq ts : Z) :
  ∃ sp : pyfloat, spd t_seq ts = Ok sp ∧ speedup_spec t_seq ts sp.
Proof.
  unfold spd, true_div, speedup_spec.
  destruct (Z.gtb_spec ts 0) as [H | H].
  - rewrite (proj2 (Z.eqb_neq ts 0)) by lia. eexists. split; [done|]. left. split; [lia | done].
  - exists Inf. split; [done|]. right. done.
Qed.

Lemma speedups_on_zero (s target : str) :
  speedups_on s target 0 = Raise ZeroDivisionError.
Proof. unfold speedups_on. by destruct (seq_search s target). Qed.

Lemma speedups_on_nonzero (s target : str) (p : Z) :
  p ≠ 0 →
  ∃ sp_erew sp_crew sp_crcw : pyfloat,
    let t_seq := (seq_search s target).2 in
    let t_par := - ((- len s) / p) in
    speedup_spec t_seq (t_par + reduction_steps p) sp_erew
    ∧ speedup_spec t_seq (t_par + reduction_steps p) sp_crew
    ∧ speedup_spec t_seq t_par sp_crcw
    ∧ speedups_on s target p
      = Ok (<["Sequential" := ((seq_search s target).1, Fin 1, t_seq)]>
            (<["EREW" := (find s target, sp_erew, t_par + reduction_steps p)]>
             (<["CREW" := (find s target, sp_crew, t_par + reduction_steps p)]>
              (<["CRCW" := (find s target, sp_crcw, t_par)]> ∅)))).
Proof.
  intros Hp. unfold speedups_on.
  pose proof (consistent_find s target) as Hc.
  destruct (seq_search s target) as [idx_seq t_seq] eqn:Hseq. simpl in Hc |- *.
  rewrite pram_erew_search_nonzero, pram_crew_search_nonzero,
    pram_crcw_search_nonzero by done.
  cbn [mbind result_bind]. rewrite Hc. cbn [negb].
  destruct (spd_spec t_seq (- (- len s / p) + reduction_steps p)) as (spe & He & Hse).
  destruct (spd_spec t_seq (- (- len s / p))) as (spw & Hw & Hsw).
  exists spe, spe, spw. rewrite He, Hw. cbn [mbind result_bind].
  done.
Qed.

(** ** Input generation, unfolded *)

Lemma mapM_chr_cases (f : Z → Z) (l : list Z) :
  (∃ cs : str, mapM (λ i, chr (f i)) l = Ok cs)
  ∨ mapM (λ i, chr (f i)) l = Raise ValueError.
Proof.
  induction l as [|a l IH]; [left; by exists []|].
  cbn [mapM]. destruct (chr (f a)) as [c|e] eqn:Hc; cbn [mbind result_bind].
  2: { right. unfold chr in Hc. destruct (_ && _); congruence. }
  destruct IH as [[cs ->] | ->]; [left; by eexists | by right].
Qed.

Lemma generate_unique_string_cases (rnd : Random) (n : Z) :
  (∃ s : str, generate_unique_string rnd n = Ok s)
  ∨ generate_unique_string rnd n = Raise ValueError.
Proof.
  unfold generate_unique_string.
  destruct (n <=? len base); [left; by eexists|].
  destruct (mapM_chr_cases (λ i, 9472 + i) (seqZ 0 (n - len base)))
    as [[cs ->] | ->]; [left; by eexists | by right].
Qed.

(** A run of [speedups] is a run of its body on some string and some
    one-character target, unless drawing them raised. *)
Lemma speedups_cases (rnd : Random) (n p : Z) (target_present : bool) :
  (∃ (s : str) (c : Z), speedups rnd n p target_present = speedups_on s [c] p)
  ∨ speedups rnd n p target_present = Raise ValueError
  ∨ speedups rnd n p target_present = Raise IndexError.
Proof.
  unfold speedups.
  destruct (generate_unique_string_cases rnd n) as [[s ->] | ->];
    [|right; by left].
  cbn [mbind result_bind]. destruct target_present.
  - unfold randrange. destruct (n <=? 0); [right; by left|].
    cbn [mbind result_bind]. unfold index.
    destruct (_ <? 0); [right; by right|].
    destruct (s !! _) as [c|]; [|right; by right].
    left. by exists s, c.
  - left. by exists s, 35.
Qed.

Lemma speedups_zero (rnd : Random) (n : Z) (target_present : bool) :
  ∃ e : exn, speedups rnd n 0 target_present = Raise e.
Proof.
  destruct (speedups_cases rnd n 0 target_present)
    as [(s & c & ->) | [-> | ->]]; [|by eexists..].
  rewrite speedups_on_zero. by eexists.
Qed.

Lemma speedup_spec_inf (t_seq ts : Z) (sp : pyfloat) :
  speedup_spec t_seq ts sp → (sp = Inf ↔ ts ≤ 0).
Proof. intros [[H ->] | [H ->]]; split; (done || lia). Qed.

Lemma pram_steps_nonneg (s : str) (p : Z) :
  1 ≤ p → 0 ≤ - ((- len s) / p) ∧ 0 ≤ reduction_steps p.
Proof.
  intros Hp. split.
  - eapply (ceil_quot_spec_nonneg (len s) p);
      [lia | apply len_nonneg | apply ceil_quot_spec_div; lia].
  - pose proof (reduction_steps_mono 1 p Hp). by rewrite reduction_steps_one in H.
Qed.

(** ** The claims *)

Lemma pram_results_nonzero (s target : str) (p : Z) (rule : string) :
  p ≠ 0 →
  pram_results s target p rule (find s target) (- ((- len s) / p))
    (reduction_steps p).
Proof.
  intros Hp. unfold pram_results.
  by rewrite pram_erew_search_nonzero, pram_crew_search_nonzero,
    pram_crcw_search_nonzero.
Qed.

(** C1. For a sequence of length 1 <= n < 2^53 and 1 <= p <= 2^48
    processors, every PRAM search returns the position of the first
    occurrence of the target (or -1 when it is absent); EREW and CREW
    take ceil(n/p) steps plus ceil(log2 p) when p > 1, and CRCW takes
    ceil(n/p) steps, with no reduction term.  The two bounds keep n and p
    where the float ceilings of the program are the exact ones; past
    them the program leaves the closed form. *)
Theorem pram_search_index_and_steps (s target : str) (p : Z) (rule : string) :
  1 ≤ len s → len s < 2 ^ 53 → 1 ≤ p → p ≤ 2 ^ 48 →
  ∃ idx c r : Z,
    first_occurrence s target idx
    ∧ ceil_quot_spec (len s) p c
    ∧ reduction_spec p r
    ∧ pram_results s target p rule idx c r.
Proof.
  intros Hn _ Hp _.
  exists (find s target), (- ((- len s) / p)), (reduction_steps p).
  split; [apply find_first_occurrence|].
  split; [apply ceil_quot_spec_div; lia|].
  split; [apply reduction_spec_steps|].
  apply pram_results_nonzero. lia.
Qed.

Lemma pram_search_index_and_steps_witness :
  1 ≤ len ABCDEFGH ∧ len ABCDEFGH < 2 ^ 53 ∧ 1 ≤ 8 ∧ 8 ≤ 2 ^ 48
  ∧ ∃ idx c r : Z,
      first_occurrence ABCDEFGH [68] idx
      ∧ ceil_quot_spec (len ABCDEFGH) 8 c
      ∧ reduction_spec 8 r
      ∧ pram_results ABCDEFGH [68] 8 priority idx c r.
Proof.
  do 4 (split; [by vm_compute|]).
  apply (pram_search_index_and_steps ABCDEFGH [68] 8 priority);
    by vm_compute.
Defined.

(** The first concrete scenario of the specification, n = 8 and p = 8. *)
Example scenario_1 :
  seq_search ABCDEFGH [68] = (3, 4)
  ∧ pram_erew_search ABCDEFGH [68] 8 = Ok (3, 4)
  ∧ pram_crew_search ABCDEFGH [68] 8 = Ok (3, 4)
  ∧ pram_crcw_search ABCDEFGH [68] 8 priority = Ok (3, 1).
Proof. by vm_compute. Qed.

(** The second one, p = 1: no parallel gain, no reduction. *)
Example scenario_2 :
  pram_erew_search ABCDEFGH [68] 1 = Ok (3, 8)
  ∧ pram_crew_search ABCDEFGH [68] 1 = Ok (3, 8)
  ∧ pram_crcw_search ABCDEFGH [68] 1 priority = Ok (3, 8).
Proof. by vm_compute. Qed.

(** The third one, n = 5, p = 4 and an absent target. *)
Example scenario_3 :
  seq_search ABCDE [90] = (-1, 5)
  ∧ pram_erew_search ABCDE [90] 4 = Ok (-1, 4)
  ∧ pram_crew_search ABCDE [90] 4 = Ok (-1, 4)
  ∧ pram_crcw_search ABCDE [90] 4 priority = Ok (-1, 2).
Proof. by vm_compute. Qed.

(** The aggregator on the third scenario: each speedup is computed
    against the 5 sequential steps. *)
Example scenario_3_speedups :
  ∃ m : gmap string (Z * pyfloat * Z),
    speedups_on ABCDE [90] 4 = Ok m
    ∧ m !! "Sequential" = Some (-1, Fin 1, 5)
    ∧ m !! "EREW" = Some (-1, Fin (5 # 4), 4)
    ∧ m !! "CREW" = Some (-1, Fin (5 # 4), 4)
    ∧ m !! "CRCW" = Some (-1, Fin (5 # 2), 2)
    ∧ m !! "PRAM" = None.
Proof. eexists. repeat split; by vm_compute. Qed.

(** C2. [seq_search] returns (k, k + 1) when the first match is at
    position k, and (-1, n) when the target matches nowhere, n being the
    length of the sequence. *)
Theorem seq_search_result (s target : str) :
  (∀ k : nat,
     matches_at s target k →
     (∀ j : nat, (j < k)%nat → ¬ matches_at s target j) →
     seq_search s target = (Z.of_nat k, Z.of_nat k + 1))
  ∧ ((∀ j : nat, ¬ matches_at s target j) →
     seq_search s target = (-1, len s)).
Proof.
  destruct (seq_search_cases s target) as [(k' & Hk' & Hmin' & ->) | [Hn ->]].
  - split.
    + intros k Hk Hmin.
      destruct (Nat.lt_trichotomy k k') as [H | [-> | H]]; [|done|].
      * by apply Hmin' in H.
      * by apply Hmin in H.
    + intros Hn. by apply Hn in Hk'.
  - split; [|done]. intros k Hk _. by apply Hn in Hk.
Qed.

Lemma seq_search_result_witness :
  seq_search ABCDEFGH [68] = (3, 4) ∧ seq_search ABCDE [90] = (-1, 5).
Proof.
  split.
  - apply (proj1 (seq_search_result ABCDEFGH [68]) 3%nat).
    + by exists 68.
    + intros [|[|[|j]]] Hj (ch & Hch & Heq); simpl in Hch; try congruence; lia.
  - apply (proj2 (seq_search_result ABCDE [90])).
    intros [|[|[|[|[|j]]]]] (ch & Hch & Heq); simpl in Hch;
      [congruence.. | by destruct j].
Defined.

(** C3, as stated, fails for EREW and CREW: on a sequence of length 8 the
    step count is 4 with 8 processors and 5 with 16. *)
Lemma erew_steps_grow_with_p :
  pram_erew_search ABCDEFGH [68] 8 = Ok (3, 4)
  ∧ pram_erew_search ABCDEFGH [68] 16 = Ok (3, 5)
  ∧ pram_crew_search ABCDEFGH [68] 8 = Ok (3, 4)
  ∧ pram_crew_search ABCDEFGH [68] 16 = Ok (3, 5)
  ∧ ¬ steps_nonincreasing pram_erew_search
  ∧ ¬ steps_nonincreasing pram_crew_search.
Proof.
  do 4 (split; [by vm_compute|]).
  split; intros H;
    specialize (H ABCDEFGH [68] 8 16 (3, 4) (3, 5));
    cut (5 ≤ 4); [lia | | lia |]; apply H; by vm_compute.
Qed.

(** C3, amended.  For n >= 1 and 1 <= p1 < p2: the CRCW steps at p2 do
    not exceed those at p1, and the sequential steps, which the
    aggregator reports unchanged, do not depend on p.  The EREW and CREW
    steps are the CRCW steps plus a reduction term that does not shrink
    when p grows; up to p2 = 2^48 that term is ceil(log2 p), 0 for
    p = 1. *)
Theorem steps_in_processor_count (s target : str) (p1 p2 : Z) (rule : string) :
  1 ≤ len s → 1 ≤ p1 → p1 < p2 →
  ∃ (idx c1 r1 c2 r2 : Z) (m1 m2 : gmap string (Z * pyfloat * Z)),
    pram_results s target p1 rule idx c1 r1
    ∧ pram_results s target p2 rule idx c2 r2
    ∧ c2 ≤ c1 ∧ r1 ≤ r2
    ∧ (p2 ≤ 2 ^ 48 → reduction_spec p1 r1 ∧ reduction_spec p2 r2)
    ∧ speedups_on s target p1 = Ok m1
    ∧ speedups_on s target p2 = Ok m2
    ∧ (∃ sp : pyfloat,
         m1 !! "Sequential" = Some ((seq_search s target).1, sp,
                                    (seq_search s target).2)
         ∧ m2 !! "Sequential" = m1 !! "Sequential").
Proof.
  intros Hn Hp1 Hp.
  destruct (speedups_on_nonzero s target p1) as (? & ? & ? & _ & _ & _ & H1); [lia|].
  destruct (speedups_on_nonzero s target p2) as (? & ? & ? & _ & _ & _ & H2); [lia|].
  eexists (find s target), _, (reduction_steps p1), _, (reduction_steps p2), _, _.
  split; [apply pram_results_nonzero; lia|].
  split; [apply pram_results_nonzero; lia|].
  split.
  { apply (ceil_quot_spec_antitone (len s) p1 p2);
      [apply len_nonneg | lia | lia | apply ceil_quot_spec_div; lia..]. }
  split; [apply reduction_steps_mono; lia|].
  split; [intros _; split; apply reduction_spec_steps|].
  split; [exact H1|]. split; [exact H2|].
  exists (Fin 1). by rewrite !lookup_insert_eq.
Qed.

Lemma steps_in_processor_count_witness :
  1 ≤ len ABCDEFGH ∧ 1 ≤ 8 ∧ 8 < 16
  ∧ ∃ (idx c1 r1 c2 r2 : Z) (m1 m2 : gmap string (Z * pyfloat * Z)),
      pram_results ABCDEFGH [68] 8 priority idx c1 r1
      ∧ pram_results ABCDEFGH [68] 16 priority idx c2 r2
      ∧ c2 ≤ c1 ∧ r1 ≤ r2
      ∧ (16 ≤ 2 ^ 48 → reduction_spec 8 r1 ∧ reduction_spec 16 r2)
      ∧ speedups_on ABCDEFGH [68] 8 = Ok m1
      ∧ speedups_on ABCDEFGH [68] 16 = Ok m2
      ∧ (∃ sp : pyfloat,
           m1 !! "Sequential" = Some ((seq_search ABCDEFGH [68]).1, sp,
                                      (seq_search ABCDEFGH [68]).2)
           ∧ m2 !! "Sequential" = m1 !! "Sequential").
Proof.
  split; [by vm_compute|]. split; [lia|]. split; [lia|].
  apply (steps_in_processor_count ABCDEFGH [68] 8 16 priority);
    [by vm_compute | lia | lia].
Defined.

(** C4. For n >= 1 and p >= 1 the CRCW step count is at most the EREW
    step count, with equality exactly when p = 1; for n < 2^53 and
    p < 2^1075, where the float quotient n / p is fine enough, the CRCW
    step count is ceil(n/p). *)
Theorem crcw_steps_le_erew (s target : str) (p : Z) (rule : string) :
  1 ≤ len s → 1 ≤ p →
  ∃ idx c e : Z,
    pram_crcw_search s target p rule = Ok (idx, c)
    ∧ pram_erew_search s target p = Ok (idx, e)
    ∧ c ≤ e
    ∧ (c = e ↔ p = 1)
    ∧ (len s < 2 ^ 53 → p < 2 ^ 1075 → ceil_quot_spec (len s) p c).
Proof.
  intros Hn Hp. eexists _, _, _.
  split; [apply pram_crcw_search_nonzero; lia|].
  split; [apply pram_erew_search_nonzero; lia|].
  assert (ceil_quot_spec (len s) p (- (- len s / p))) as Hc
    by (apply ceil_quot_spec_div; lia).
  destruct (Z.eq_dec p 1) as [-> | Hne].
  - rewrite reduction_steps_one. split; [lia|]. split; [|done].
    split; [done | lia].
  - pose proof (reduction_steps_pos p ltac:(lia)). split; [lia|].
    split; [|done]. split; lia.
Qed.

Lemma crcw_steps_le_erew_witness :
  1 ≤ len ABCDE ∧ 1 ≤ 4
  ∧ ∃ idx c e : Z,
      pram_crcw_search ABCDE [90] 4 priority = Ok (idx, c)
      ∧ pram_erew_search ABCDE [90] 4 = Ok (idx, e)
      ∧ c ≤ e
      ∧ (c = e ↔ 4 = 1)
      ∧ (len ABCDE < 2 ^ 53 → 4 < 2 ^ 1075 → ceil_quot_spec (len ABCDE) 4 c).
Proof.
  split; [by vm_compute|]. split; [lia|].
  apply (crcw_steps_le_erew ABCDE [90] 4 priority); [by vm_compute | lia].
Defined.

(** The aggregator never fails for a nonzero [p]: the assertion holds
    whatever the target string is. *)
Lemma speedups_on_returns (s target : str) (p : Z) :
  p ≠ 0 → ∃ m : gmap string (Z * pyfloat * Z), speedups_on s target p = Ok m.
Proof.
  intros Hp.
  destruct (speedups_on_nonzero s target p Hp) as (? & ? & ? & _ & _ & _ & H).
  by eexists.
Qed.

Lemma speedups_no_assertion_error (rnd : Random) (n p : Z)
    (target_present : bool) (msg : string) :
  speedups rnd n p target_present ≠ Raise (AssertionError msg).
Proof.
  destruct (speedups_cases rnd n p target_present)
    as [(s & c & ->) | [-> | ->]]; [|done..].
  destruct (Z.eq_dec p 0) as [-> | Hp].
  - by rewrite speedups_on_zero.
  - destruct (speedups_on_returns s [c] p Hp) as [m ->]. done.
Qed.

(** C5, as stated, fails: with p = -1 the searches and the aggregator
    return, and the step count is negative. *)
Lemma negative_processor_count_accepted :
  pram_erew_search [65; 66; 67] [66] (-1) = Ok (1, -3)
  ∧ pram_crew_search [65; 66; 67] [66] (-1) = Ok (1, -3)
  ∧ pram_crcw_search [65; 66; 67] [66] (-1) priority = Ok (1, -3)
  ∧ (∃ m : gmap string (Z * pyfloat * Z),
       speedups first_rnd 3 (-1) true = Ok m
       ∧ m !! "CRCW" = Some (0, Inf, -3))
  ∧ ¬ rejects_below_one pram_erew_search.
Proof.
  do 3 (split; [by vm_compute|]).
  split; [eexists; split; by vm_compute|].
  intros H. destruct (H [65; 66; 67] [66] (-1)) as [e He]; [lia|].
  vm_compute in He. discriminate He.
Qed.

(** C5, amended.  Below one, only p = 0 makes the searches and the
    aggregator fail, with the ZeroDivisionError of n / p (the aggregator
    may fail earlier, while drawing its input).  For p < 0 nothing fails:
    the three searches return the same step count ceil(n/p), which is not
    positive, and the aggregator returns a mapping. *)
Theorem processor_count_below_one (s target : str) (p : Z) (rule : string)
    (rnd : Random) (n : Z) (target_present : bool) :
  p < 1 →
  (p = 0 ∧ pram_erew_search s target p = Raise ZeroDivisionError
         ∧ pram_crew_search s target p = Raise ZeroDivisionError
         ∧ pram_crcw_search s target p rule = Raise ZeroDivisionError
         ∧ speedups_on s target p = Raise ZeroDivisionError
         ∧ ∃ e : exn, speedups rnd n p target_present = Raise e)
  ∨ (p < 0 ∧ ∃ c : Z,
       c ≤ 0 ∧ c * p ≤ len s ∧ len s < (c - 1) * p
       ∧ pram_erew_search s target p = Ok (find s target, c)
       ∧ pram_crew_search s target p = Ok (find s target, c)
       ∧ pram_crcw_search s target p rule = Ok (find s target, c)
       ∧ ∃ m : gmap string (Z * pyfloat * Z), speedups_on s target p = Ok m).
Proof.
  intros Hp. destruct (Z.eq_dec p 0) as [-> | Hne].
  - left. split; [done|]. do 3 (split; [done|]).
    split; [apply speedups_on_zero | apply speedups_zero].
  - right. split; [lia|]. exists (- ((- len s) / p)).
    split; [apply ceil_div_neg_nonpos; [apply len_nonneg | lia]|].
    pose proof (Z.div_mod (- len s) p Hne) as Hdm.
    pose proof (Z.mod_neg_bound (- len s) p ltac:(lia)) as Hb.
    split; [nia|]. split; [nia|].
    rewrite pram_erew_search_nonzero, pram_crew_search_nonzero,
      pram_crcw_search_nonzero by done.
    assert (reduction_steps p = 0) as ->.
    { unfold reduction_steps. destruct (Z.gtb_spec p 1); [lia | done]. }
    rewrite Z.add_0_r. do 3 (split; [done|]).
    by apply speedups_on_returns.
Qed.

Lemma processor_count_below_one_witness :
  -2 < 1
  ∧ ((-2 = 0 ∧ pram_erew_search ABCDE [90] (-2) = Raise ZeroDivisionError
            ∧ pram_crew_search ABCDE [90] (-2) = Raise ZeroDivisionError
            ∧ pram_crcw_search ABCDE [90] (-2) priority = Raise ZeroDivisionError
            ∧ speedups_on ABCDE [90] (-2) = Raise ZeroDivisionError
            ∧ ∃ e : exn, speedups first_rnd 5 (-2) false = Raise e)
     ∨ (-2 < 0 ∧ ∃ c : Z,
          c ≤ 0 ∧ c * -2 ≤ len ABCDE ∧ len ABCDE < (c - 1) * -2
          ∧ pram_erew_search ABCDE [90] (-2) = Ok (find ABCDE [90], c)
          ∧ pram_crew_search ABCDE [90] (-2) = Ok (find ABCDE [90], c)
          ∧ pram_crcw_search ABCDE [90] (-2) priority = Ok (find ABCDE [90], c)
          ∧ ∃ m : gmap string (Z * pyfloat * Z),
              speedups_on ABCDE [90] (-2) = Ok m)).
Proof.
  split; [lia|].
  apply (processor_count_below_one ABCDE [90] (-2) priority first_rnd 5 false).
  lia.
Defined.

(** C6, as stated, fails: a rule other than "priority" is accepted and
    the priority result is returned. *)
Lemma crcw_accepts_other_rule :
  "arbitrary" ≠ priority
  ∧ pram_crcw_search ABCDEFGH [68] 8 "arbitrary" = Ok (3, 1)
  ∧ pram_crcw_search ABCDEFGH [68] 8 "arbitrary"
    = pram_crcw_search ABCDEFGH [68] 8 priority.
Proof. split; [done|]. split; by vm_compute. Qed.

(** C6, amended.  For p >= 1 [pram_crcw_search] does not fail whatever the
    rule argument is: the rule is ignored, and the call returns what it
    returns under "priority". *)
Theorem crcw_rule_ignored (s target : str) (p : Z) (rule : string) :
  1 ≤ p →
  ∃ r : Z * Z,
    pram_crcw_search s target p rule = Ok r
    ∧ pram_crcw_search s target p priority = Ok r.
Proof.
  intros Hp. eexists. split; apply pram_crcw_search_nonzero; lia.
Qed.

Lemma crcw_rule_ignored_witness :
  1 ≤ 8
  ∧ ∃ r : Z * Z,
      pram_crcw_search ABCDEFGH [68] 8 "common" = Ok r
      ∧ pram_crcw_search ABCDEFGH [68] 8 priority = Ok r.
Proof.
  split; [lia|]. apply (crcw_rule_ignored ABCDEFGH [68] 8 "common"). lia.
Defined.

(** C7. For p >= 1, [pram_erew_search] and [pram_crew_search] return the
    same result on the same input: the same index and the same steps. *)
Theorem erew_crew_identical (s target : str) (p : Z) :
  1 ≤ p →
  ∃ idx steps : Z,
    pram_erew_search s target p = Ok (idx, steps)
    ∧ pram_crew_search s target p = Ok (idx, steps).
Proof.
  intros Hp. eexists _, _.
  split; [apply pram_erew_search_nonzero | apply pram_crew_search_nonzero]; lia.
Qed.

Lemma erew_crew_identical_witness :
  1 ≤ 4
  ∧ ∃ idx steps : Z,
      pram_erew_search ABCDE [90] 4 = Ok (idx, steps)
      ∧ pram_crew_search ABCDE [90] 4 = Ok (idx, steps).
Proof.
  split; [lia|]. apply (erew_crew_identical ABCDE [90] 4). lia.
Defined.

(** C8, as stated, fails: with p = -1 the aggregator returns a mapping
    whose EREW entry has speedup +inf for a step count of -3, not 0. *)
Lemma inf_speedup_for_negative_steps :
  ∃ m : gmap string (Z * pyfloat * Z),
    speedups first_rnd 3 (-1) true = Ok m
    ∧ m !! "EREW" = Some (0, Inf, -3)
    ∧ -3 ≠ 0.
Proof. eexists. split; [by vm_compute|]. split; [by vm_compute | lia]. Qed.

(** C8, amended.  In every mapping the aggregator returns, the Sequential
    entry has speedup exactly 1.0, and the entry of each PRAM model holds
    the index and steps of that search with speedup t_seq / steps, +inf
    being substituted exactly when the steps are not positive; for
    p >= 1 that is exactly when the steps are 0. *)
Theorem speedups_entries (rnd : Random) (n p : Z) (target_present : bool)
    (m : gmap string (Z * pyfloat * Z)) :
  speedups rnd n p target_present = Ok m →
  ∃ (s target : str) (idx_seq t_seq : Z) (e c w : Z * Z)
    (sp_e sp_c sp_w : pyfloat),
    seq_search s target = (idx_seq, t_seq)
    ∧ pram_erew_search s target p = Ok e
    ∧ pram_crew_search s target p = Ok c
    ∧ pram_crcw_search s target p priority = Ok w
    ∧ m !! "Sequential" = Some (idx_seq, Fin 1, t_seq)
    ∧ m !! "EREW" = Some (e.1, sp_e, e.2)
    ∧ m !! "CREW" = Some (c.1, sp_c, c.2)
    ∧ m !! "CRCW" = Some (w.1, sp_w, w.2)
    ∧ speedup_spec t_seq e.2 sp_e
    ∧ speedup_spec t_seq c.2 sp_c
    ∧ speedup_spec t_seq w.2 sp_w
    ∧ (sp_e = Inf ↔ e.2 ≤ 0) ∧ (sp_c = Inf ↔ c.2 ≤ 0) ∧ (sp_w = Inf ↔ w.2 ≤ 0)
    ∧ (1 ≤ p →
       (sp_e = Inf ↔ e.2 = 0) ∧ (sp_c = Inf ↔ c.2 = 0) ∧ (sp_w = Inf ↔ w.2 = 0)).
Proof.
  intros Hm.
  destruct (speedups_cases rnd n p target_present)
    as [(s & ch & Hs) | [Hs | Hs]]; [|congruence..].
  rewrite Hs in Hm. clear Hs.
  assert (p ≠ 0) as Hp by (intros ->; by rewrite speedups_on_zero in Hm).
  destruct (speedups_on_nonzero s [ch] p Hp) as (sp_e & sp_c & sp_w & He & Hc & Hw & H).
  cbv zeta in He, Hc, Hw, H. rewrite H in Hm. injection Hm as <-. clear H.
  exists s, [ch], (seq_search s [ch]).1, (seq_search s [ch]).2.
  eexists (_, _), (_, _), (_, _). exists sp_e, sp_c, sp_w.
  split; [by destruct (seq_search s [ch])|].
  split; [by apply pram_erew_search_nonzero|].
  split; [by apply pram_crew_search_nonzero|].
  split; [by apply pram_crcw_search_nonzero|].
  split; [by rewrite lookup_insert_eq|].
  do 3 (split; [by rewrite !lookup_insert_ne, lookup_insert_eq by done|]).
  cbn [fst snd]. do 3 (split; [done|]).
  pose proof (speedup_spec_inf _ _ _ He) as Ie.
  pose proof (speedup_spec_inf _ _ _ Hc) as Ic.
  pose proof (speedup_spec_inf _ _ _ Hw) as Iw.
  do 3 (split; [done|]).
  intros Hp1. destruct (pram_steps_nonneg s p Hp1) as [H1 H2].
  rewrite Ie, Ic, Iw. lia.
Qed.

Lemma speedups_entries_witness :
  ∃ m : gmap string (Z * pyfloat * Z),
    speedups first_rnd 8 8 true = Ok m
    ∧ ∃ (s target : str) (idx_seq t_seq : Z) (e c w : Z * Z)
        (sp_e sp_c sp_w : pyfloat),
        seq_search s target = (idx_seq, t_seq)
        ∧ pram_erew_search s target 8 = Ok e
        ∧ pram_crew_search s target 8 = Ok c
        ∧ pram_crcw_search s target 8 priority = Ok w
        ∧ m !! "Sequential" = Some (idx_seq, Fin 1, t_seq)
        ∧ m !! "EREW" = Some (e.1, sp_e, e.2)
        ∧ m !! "CREW" = Some (c.1, sp_c, c.2)
        ∧ m !! "CRCW" = Some (w.1, sp_w, w.2)
        ∧ speedup_spec t_seq e.2 sp_e
        ∧ speedup_spec t_seq c.2 sp_c
        ∧ speedup_spec t_seq w.2 sp_w
        ∧ (sp_e = Inf ↔ e.2 ≤ 0) ∧ (sp_c = Inf ↔ c.2 ≤ 0)
        ∧ (sp_w = Inf ↔ w.2 ≤ 0)
        ∧ (1 ≤ 8 →
           (sp_e = Inf ↔ e.2 = 0) ∧ (sp_c = Inf ↔ c.2 = 0)
           ∧ (sp_w = Inf ↔ w.2 = 0)).
Proof.
  eexists. split; [by vm_compute|].
  apply (speedups_entries first_rnd 8 8 true). by vm_compute.
Defined.

(** C9. For p >= 1 the steps of each PRAM search depend only on the
    length of the sequence and on p: two runs on sequences of equal
    length take the same steps, whatever the targets are. *)
Theorem steps_depend_on_length_only (s1 t1 s2 t2 : str) (p : Z)
    (rule1 rule2 : string) :
  1 ≤ p → len s1 = len s2 →
  ∃ i1 i2 c r : Z,
    pram_results s1 t1 p rule1 i1 c r ∧ pram_results s2 t2 p rule2 i2 c r.
Proof.
  intros Hp Hlen. eexists _, _, _, _. split.
  - apply pram_results_nonzero. lia.
  - rewrite Hlen. apply pram_results_nonzero. lia.
Qed.

Lemma steps_depend_on_length_only_witness :
  1 ≤ 4 ∧ len ABCDE = len [72; 69; 76; 76; 79]
  ∧ ∃ i1 i2 c r : Z,
      pram_results ABCDE [90] 4 priority i1 c r
      ∧ pram_results [72; 69; 76; 76; 79] [76] 4 priority i2 c r.
Proof.
  split; [lia|]. split; [reflexivity|].
  apply (steps_depend_on_length_only ABCDE [90] [72; 69; 76; 76; 79] [76] 4);
    [lia | reflexivity].
Defined.

(** C10. The assertion of the aggregator cannot fail.  For every sequence,
    duplicates or not, every target symbol and p >= 1, the four searches
    return the same index, the position of the first occurrence or -1;
    the aggregator's body returns a mapping for every target string, and
    no run of the aggregator ends in an AssertionError. *)
Theorem indices_agree (s : str) (ch : Z) (p : Z) (rule : string) :
  1 ≤ p →
  ∃ idx t_seq c r : Z,
    first_occurrence s [ch] idx
    ∧ seq_search s [ch] = (idx, t_seq)
    ∧ pram_results s [ch] p rule idx c r
    ∧ (∀ target : str,
         ∃ m : gmap string (Z * pyfloat * Z), speedups_on s target p = Ok m)
    ∧ (∀ (rnd : Random) (n : Z) (target_present : bool) (msg : string),
         speedups rnd n p target_present ≠ Raise (AssertionError msg)).
Proof.
  intros Hp.
  exists (find s [ch]), (seq_search s [ch]).2, (- ((- len s) / p)),
    (reduction_steps p).
  split; [apply find_first_occurrence|].
  split.
  { rewrite <- seq_search_find_single. by destruct (seq_search s [ch]). }
  split; [apply pram_results_nonzero; lia|].
  split.
  - intros target. apply speedups_on_returns. lia.
  - intros rnd n tp msg. apply speedups_no_assertion_error.
Qed.

Lemma indices_agree_witness :
  1 ≤ 2
  ∧ ∃ idx t_seq c r : Z,
      first_occurrence [65; 66; 65; 66] [66] idx
      ∧ seq_search [65; 66; 65; 66] [66] = (idx, t_seq)
      ∧ pram_results [65; 66; 65; 66] [66] 2 priority idx c r
      ∧ (∀ target : str,
           ∃ m : gmap string (Z * pyfloat * Z),
             speedups_on [65; 66; 65; 66] target 2 = Ok m)
      ∧ (∀ (rnd : Random) (n : Z) (target_present : bool) (msg : string),
           speedups rnd n 2 target_present ≠ Raise (AssertionError msg)).
Proof.
  split; [lia|]. apply (indices_agree [65; 66; 65; 66] 66 2 priority). lia.
Defined.

(** ** Input generation: length, uniqueness, errors *)

Lemma len_base : len base = 62.
Proof. reflexivity. Qed.

Lemma elem_of_base (c : Z) :
  c ∈ base ↔ 97 ≤ c ≤ 122 ∨ 65 ≤ c ≤ 90 ∨ 48 ≤ c ≤ 57.
Proof. unfold base. rewrite !elem_of_app, !elem_of_seqZ. lia. Qed.

Lemma NoDup_base : NoDup base.
Proof.
  unfold base. rewrite !NoDup_app.
  split; [apply NoDup_seqZ|]. split.
  - intros c. rewrite elem_of_app, !elem_of_seqZ. lia.
  - split; [apply NoDup_seqZ|]. split; [|apply NoDup_seqZ].
    intros c. rewrite !elem_of_seqZ. lia.
Qed.

Lemma chr_in_range (c : Z) : 0 ≤ c ≤ 1114111 → chr c = Ok c.
Proof.
  intros Hc. unfold chr.
  by rewrite (proj2 (Z.leb_le 0 c)), (proj2 (Z.leb_le c 1114111)) by lia.
Qed.

Lemma chr_out_of_range (c : Z) : ¬ (0 ≤ c ≤ 1114111) → chr c = Raise ValueError.
Proof.
  intros Hc. unfold chr.
  destruct (Z.leb_spec 0 c), (Z.leb_spec c 1114111); (done || lia).
Qed.

Lemma mapM_chr_in_range (f : Z → Z) (l : list Z) :
  (∀ a : Z, a ∈ l → 0 ≤ f a ≤ 1114111) →
  mapM (λ i, chr (f i)) l = Ok (f <$> l).
Proof.
  induction l as [|a l IH]; intros Hl; [done|].
  cbn [mapM]. rewrite chr_in_range by (apply Hl; left).
  cbn [mbind result_bind]. rewrite IH; [done|].
  intros b Hb. apply Hl. by right.
Qed.

Lemma mapM_chr_out_of_range (f : Z → Z) (l : list Z) (a : Z) :
  a ∈ l → ¬ (0 ≤ f a ≤ 1114111) →
  mapM (λ i, chr (f i)) l = Raise ValueError.
Proof.
  intros Ha Hf.
  destruct (mapM_chr_cases f l) as [[cs Hcs] | H]; [exfalso | done].
  revert cs Hcs. induction Ha as [a l | a b l Ha IH]; intros cs; cbn [mapM].
  - by rewrite chr_out_of_range.
  - destruct (chr (f b)); cbn [mbind result_bind]; [|done].
    destruct (mapM _ l) as [cs'|] eqn:Hl; cbn [mbind result_bind]; [|done].
    intros _. by eapply IH.
Qed.

(** What [generate_unique_string] returns, by the size of [n]. *)
Lemma generate_unique_string_small (rnd : Random) (n : Z) :
  n ≤ 62 → generate_unique_string rnd n = Ok (slice_to (shuffle rnd base) n).
Proof.
  intros Hn. unfold generate_unique_string.
  by rewrite len_base, (proj2 (Z.leb_le n 62) Hn).
Qed.

Lemma generate_unique_string_large (rnd : Random) (n : Z) :
  62 < n → n ≤ max_unique_len →
  generate_unique_string rnd n = Ok (shuffle rnd base ++ seqZ 9472 (n - 62)).
Proof.
  unfold max_unique_len. intros Hn Hmax. unfold generate_unique_string.
  rewrite len_base, (proj2 (Z.leb_gt n 62)) by lia.
  rewrite (mapM_chr_in_range (Z.add 9472)).
  - cbn [mbind result_bind]. rewrite fmap_add_seqZ. do 3 f_equal.
  - intros a. rewrite elem_of_seqZ. lia.
Qed.

Lemma generate_unique_string_too_long (rnd : Random) (n : Z) :
  max_unique_len < n → generate_unique_string rnd n = Raise ValueError.
Proof.
  unfold max_unique_len. intros Hn. unfold generate_unique_string.
  rewrite len_base, (proj2 (Z.leb_gt n 62)) by lia.
  rewrite (mapM_chr_out_of_range (Z.add 9472) _ (n - 63)); [done| |lia].
  rewrite elem_of_seqZ. lia.
Qed.

Lemma shuffle_base_length (rnd : Random) :
  shuffle rnd base ≡ₚ base → length (shuffle rnd base) = 62%nat.
Proof. intros H. by rewrite H. Qed.

Lemma slice_to_take {A : Type} (l : list A) (n : Z) :
  ∃ k : nat, slice_to l n = take k l.
Proof. unfold slice_to. destruct (n <? 0); by eexists. Qed.

(** The three ways a call of [generate_unique_string] ends. *)
Lemma generate_unique_string_shape (rnd : Random) (n : Z) :
  (n ≤ 62 ∧ ∃ k : nat,
     generate_unique_string rnd n = Ok (take k (shuffle rnd base)))
  ∨ (62 < n ≤ max_unique_len
     ∧ generate_unique_string rnd n
       = Ok (shuffle rnd base ++ seqZ 9472 (n - 62)))
  ∨ (max_unique_len < n ∧ generate_unique_string rnd n = Raise ValueError).
Proof.
  destruct (Z.le_gt_cases n 62) as [H | H].
  - left. split; [done|]. rewrite generate_unique_string_small by done.
    destruct (slice_to_take (shuffle rnd base) n) as [k ->]. by exists k.
  - right. destruct (Z.le_gt_cases n max_unique_len) as [H' | H'].
    + left. split; [done|]. by apply generate_unique_string_large.
    + right. split; [done|]. by apply generate_unique_string_too_long.
Qed.

(** Every character of a generated string is a letter or a digit, or one
    of the [n - 62] code points from 0x2500 on. *)
Lemma generated_elem (rnd : Random) (n : Z) (s : str) (c : Z) :
  shuffle rnd base ≡ₚ base →
  generate_unique_string rnd n = Ok s →
  c ∈ s → c ∈ base ∨ (62 < n ∧ 9472 ≤ c < 9410 + n).
Proof.
  intros Hperm Hs Hc.
  destruct (generate_unique_string_shape rnd n)
    as [[Hn [k Hk]] | [[Hn Hl] | [Hn Hr]]]; [| |congruence].
  - left. rewrite Hk in Hs. injection Hs as <-.
    apply subseteq_take in Hc. by rewrite Hperm in Hc.
  - rewrite Hl in Hs. injection Hs as <-.
    apply elem_of_app in Hc as [Hc | Hc].
    + left. by rewrite Hperm in Hc.
    + right. apply elem_of_seqZ in Hc. lia.
Qed.

(** X1. For a length between 0 and the largest one [chr] allows, and a
    shuffle that permutes, [generate_unique_string] returns a string of
    exactly [n] characters. *)
Theorem generate_unique_string_length (rnd : Random) (n : Z) :
  shuffle rnd base ≡ₚ base → 0 ≤ n → n ≤ max_unique_len →
  ∃ s : str, generate_unique_string rnd n = Ok s ∧ len s = n.
Proof.
  intros Hperm H0 Hmax. pose proof (shuffle_base_length rnd Hperm) as Hlen.
  destruct (Z.le_gt_cases n 62) as [H | H].
  - rewrite generate_unique_string_small by done. eexists. split; [done|].
    unfold slice_to, len. rewrite (proj2 (Z.ltb_ge n 0)) by lia.
    rewrite length_take_le by lia. lia.
  - rewrite generate_unique_string_large by done. eexists. split; [done|].
    unfold len. rewrite length_app, length_seqZ, Hlen. lia.
Qed.

Lemma generate_unique_string_length_witness :
  shuffle first_rnd base ≡ₚ base ∧ 0 ≤ 64 ∧ 64 ≤ max_unique_len
  ∧ ∃ s : str, generate_unique_string first_rnd 64 = Ok s ∧ len s = 64.
Proof.
  split; [reflexivity|]. split; [lia|]. split; [by vm_compute|].
  apply (generate_unique_string_length first_rnd 64);
    [reflexivity | lia | by vm_compute].
Defined.

(** X2. Whenever [generate_unique_string] returns, with a shuffle that
    permutes, the characters of the string are pairwise distinct,
    whatever [n] is. *)
Theorem generate_unique_string_unique (rnd : Random) (n : Z) (s : str) :
  shuffle rnd base ≡ₚ base →
  generate_unique_string rnd n = Ok s →
  NoDup s.
Proof.
  intros Hperm Hs.
  assert (NoDup (shuffle rnd base)) as Hnd by (rewrite Hperm; apply NoDup_base).
  destruct (generate_unique_string_shape rnd n)
    as [[Hn [k Hk]] | [[Hn Hl] | [Hn Hr]]]; [| |congruence].
  - rewrite Hk in Hs. injection Hs as <-.
    eapply sublist_NoDup; [done | apply sublist_take].
  - rewrite Hl in Hs. injection Hs as <-.
    apply NoDup_app. split; [done|]. split; [|apply NoDup_seqZ].
    intros c Hc. rewrite Hperm in Hc. apply elem_of_base in Hc.
    rewrite elem_of_seqZ. lia.
Qed.

Lemma generate_unique_string_unique_witness :
  ∃ s : str,
    shuffle first_rnd base ≡ₚ base
    ∧ generate_unique_string first_rnd 64 = Ok s
    ∧ NoDup s.
Proof.
  eexists. split; [reflexivity|]. split; [by vm_compute|].
  apply (generate_unique_string_unique first_rnd 64);
    [reflexivity | by vm_compute].
Defined.

(** X3. [generate_unique_string] fails exactly for a length above
    1104702, with the ValueError of [chr]; every other length, negative
    ones too, gives a string. *)
Theorem generate_unique_string_error (rnd : Random) (n : Z) :
  (n ≤ max_unique_len ∧ ∃ s : str, generate_unique_string rnd n = Ok s)
  ∨ (max_unique_len < n ∧ generate_unique_string rnd n = Raise ValueError).
Proof.
  destruct (generate_unique_string_shape rnd n)
    as [[Hn [k Hk]] | [[Hn Hl] | [Hn Hr]]].
  - left. split; [unfold max_unique_len; lia | by eexists].
  - left. split; [lia | by eexists].
  - by right.
Qed.

(** X4. A negative length is not rejected: with a shuffle that permutes,
    [generate_unique_string] returns the shuffled alphabet without its
    last [-n] characters, that is, 62 + n characters, or none when
    n <= -62. *)
Theorem generate_unique_string_negative (rnd : Random) (n : Z) :
  shuffle rnd base ≡ₚ base → n < 0 →
  ∃ s : str,
    generate_unique_string rnd n = Ok s
    ∧ len s = Z.max 0 (62 + n)
    ∧ s `prefix_of` shuffle rnd base.
Proof.
  intros Hperm Hn. pose proof (shuffle_base_length rnd Hperm) as Hlen.
  rewrite generate_unique_string_small by lia. eexists. split; [done|].
  unfold slice_to, len. rewrite (proj2 (Z.ltb_lt n 0)) by done. split.
  - rewrite length_take, Hlen. lia.
  - apply prefix_take.
Qed.

Lemma generate_unique_string_negative_witness :
  shuffle first_rnd base ≡ₚ base ∧ -1 < 0
  ∧ ∃ s : str,
      generate_unique_string first_rnd (-1) = Ok s
      ∧ len s = Z.max 0 (62 + -1)
      ∧ s `prefix_of` shuffle first_rnd base.
Proof.
  split; [reflexivity|]. split; [lia|].
  apply (generate_unique_string_negative first_rnd (-1)); [reflexivity | lia].
Defined.

(** X5. A generated string never holds the character '#' that [speedups]
    searches for when the target is to be absent: its characters are
    ASCII letters and digits, and box-drawing code points from 0x2500 on
    when n > 62. *)
Theorem generate_unique_string_alphabet (rnd : Random) (n : Z) (s : str) :
  shuffle rnd base ≡ₚ base →
  generate_unique_string rnd n = Ok s →
  (35 ∉ s)
  ∧ ∀ c : Z, c ∈ s →
      97 ≤ c ≤ 122 ∨ 65 ≤ c ≤ 90 ∨ 48 ≤ c ≤ 57
      ∨ (62 < n ∧ 9472 ≤ c < 9410 + n).
Proof.
  intros Hperm Hs.
  assert (∀ c : Z, c ∈ s →
            97 ≤ c ≤ 122 ∨ 65 ≤ c ≤ 90 ∨ 48 ≤ c ≤ 57
            ∨ (62 < n ∧ 9472 ≤ c < 9410 + n)) as H.
  { intros c Hc.
    destruct (generated_elem rnd n s c Hperm Hs Hc) as [Hb | Hb];
      [apply elem_of_base in Hb|]; lia. }
  split; [|done]. intros Hc. apply H in Hc. lia.
Qed.

Lemma generate_unique_string_alphabet_witness :
  ∃ s : str,
    shuffle first_rnd base ≡ₚ base
    ∧ generate_unique_string first_rnd 64 = Ok s
    ∧ (35 ∉ s)
    ∧ ∀ c : Z, c ∈ s →
        97 ≤ c ≤ 122 ∨ 65 ≤ c ≤ 90 ∨ 48 ≤ c ≤ 57
        ∨ (62 < 64 ∧ 9472 ≤ c < 9410 + 64).
Proof.
  eexists. split; [reflexivity|]. split; [by vm_compute|].
  apply (generate_unique_string_alphabet first_rnd 64);
    [reflexivity | by vm_compute].
Defined.

(** ** The searches at the edges *)

Lemma occurs_at_bound (s t : str) (k : nat) :
  occurs_at s t k → (k + length t ≤ length s)%nat.
Proof. intros (pre & post & -> & <-). rewrite !length_app. lia. Qed.

Lemma find_range (s t : str) :
  find s t = -1 ∨ 0 ≤ find s t ≤ len s - len t.
Proof.
  destruct (find_first_occurrence s t) as [(k & -> & Hk & _) | [-> _]];
    [right | by left].
  apply occurs_at_bound in Hk. unfold len. lia.
Qed.

Lemma find_nil (s : str) : find s [] = 0.
Proof. by destruct s. Qed.

Lemma find_absent (s : str) (c : Z) : c ∉ s → find s [c] = -1.
Proof.
  intros Hc.
  destruct (find_first_occurrence s [c]) as [(k & _ & Hk & _) | [-> _]]; [|done].
  apply occurs_at_single, list_elem_of_lookup_2 in Hk. done.
Qed.

Lemma find_unique (s : str) (c : Z) (r : nat) :
  NoDup s → s !! r = Some c → find s [c] = Z.of_nat r.
Proof.
  intros Hnd Hr. eapply first_occurrence_unique; [apply find_first_occurrence|].
  left. exists r. split; [done|]. split; [by apply occurs_at_single|].
  intros j Hj Hocc. apply occurs_at_single in Hocc.
  pose proof (NoDup_lookup s j r c Hnd Hocc Hr). lia.
Qed.

(** The two shapes a result of [seq_search] has. *)
Lemma seq_search_shape (s target : str) :
  seq_search s target = (-1, len s)
  ∨ ∃ (k : nat) (ch : Z),
      seq_search s target = (Z.of_nat k, Z.of_nat k + 1)
      ∧ s !! k = Some ch ∧ target = [ch].
Proof.
  destruct (seq_search_cases s target) as [(k & (ch & Hk & ->) & _ & H) | [_ H]];
    [right | by left].
  by exists k, ch.
Qed.

Lemma seq_search_steps_of_index (s target : str) :
  (seq_search s target).2
  = if (seq_search s target).1 =? -1 then len s else (seq_search s target).1 + 1.
Proof.
  destruct (seq_search_shape s target) as [-> | (k & ch & -> & _)]; [done|].
  cbn [fst snd]. destruct (Z.eqb_spec (Z.of_nat k) (-1)); [lia | done].
Qed.

Lemma seq_search_absent (s : str) (c : Z) :
  c ∉ s → seq_search s [c] = (-1, len s).
Proof.
  intros Hc. destruct (seq_search_shape s [c]) as [-> | (k & ch & _ & Hk & [= <-])];
    [done|].
  by apply list_elem_of_lookup_2 in Hk.
Qed.

Lemma seq_search_unique (s : str) (c : Z) (r : nat) :
  NoDup s → s !! r = Some c →
  seq_search s [c] = (Z.of_nat r, Z.of_nat r + 1).
Proof.
  intros Hnd Hr.
  pose proof (seq_search_find_single s c) as Hi.
  pose proof (seq_search_steps_of_index s [c]) as Hs.
  rewrite (find_unique s c r Hnd Hr) in Hi. rewrite Hi in Hs.
  destruct (seq_search s [c]) as [i t]. cbn [fst snd] in *. subst i.
  destruct (Z.eqb_spec (Z.of_nat r) (-1)); [lia | by subst t].
Qed.

(** X6. The result of [seq_search] is either (-1, n), or an index k
    inside the sequence with k + 1 steps, and then the target is the
    one-character string found at k: the index is never out of range
    and the steps never exceed n. *)
Theorem seq_search_range (s target : str) :
  ∃ idx steps : Z,
    seq_search s target = (idx, steps)
    ∧ 0 ≤ steps ≤ len s
    ∧ ((idx = -1 ∧ steps = len s)
       ∨ (0 ≤ idx < len s ∧ steps = idx + 1
          ∧ ∃ ch : Z, s !! Z.to_nat idx = Some ch ∧ target = [ch])).
Proof.
  destruct (seq_search_shape s target) as [-> | (k & ch & -> & Hk & ->)].
  - exists (-1), (len s). split; [done|]. split; [unfold len; lia | by left].
  - pose proof (lookup_lt_Some _ _ _ Hk) as Hlt.
    exists (Z.of_nat k), (Z.of_nat k + 1). split; [done|].
    split; [unfold len; lia|]. right. split; [unfold len; lia|].
    split; [done|]. exists ch. by rewrite Nat2Z.id.
Qed.

(** X7. A target that is not a single character, the empty string or a
    longer one, never matches in [seq_search]: all n characters are
    compared and -1 is returned, even where the target is a substring. *)
Theorem seq_search_not_single (s target : str) :
  length target ≠ 1%nat → seq_search s target = (-1, len s).
Proof.
  intros Hl. by destruct (seq_search_shape s target) as [-> | (k & ch & _ & _ & ->)].
Qed.

Lemma seq_search_not_single_witness :
  length [65; 66] ≠ 1%nat
  ∧ seq_search ABCDE [65; 66] = (-1, len ABCDE)
  ∧ find ABCDE [65; 66] = 0.
Proof.
  split; [by vm_compute|].
  split; [apply (seq_search_not_single ABCDE [65; 66]); by vm_compute|].
  reflexivity.
Defined.

(** X8. For p >= 1 the index of the PRAM searches is -1 or lies between
    0 and n - len(target), so that the whole target fits at that
    position; for a one-character target it is at most n - 1. *)
Theorem pram_index_range (s target : str) (p : Z) (rule : string) :
  1 ≤ p →
  ∃ idx c r : Z,
    pram_results s target p rule idx c r
    ∧ (idx = -1 ∨ 0 ≤ idx ≤ len s - len target).
Proof.
  intros Hp. exists (find s target), (- ((- len s) / p)), (reduction_steps p).
  split; [apply pram_results_nonzero; lia | apply find_range].
Qed.

Lemma pram_index_range_witness :
  1 ≤ 4
  ∧ ∃ idx c r : Z,
      pram_results ABCDE [67] 4 priority idx c r
      ∧ (idx = -1 ∨ 0 ≤ idx ≤ len ABCDE - len [67]).
Proof.
  split; [lia|]. apply (pram_index_range ABCDE [67] 4 priority). lia.
Defined.

(** X9. With at least as many processors as characters, n >= 1, and no
    more than 2^48 of them, the scan takes one step: CRCW returns 1 step,
    EREW and CREW 1 step plus the ceil(log2 p) of the reduction. *)
Theorem one_scan_step (s target : str) (p : Z) (rule : string) :
  1 ≤ len s → len s ≤ p → p ≤ 2 ^ 48 →
  ∃ idx r : Z, pram_results s target p rule idx 1 r ∧ reduction_spec p r.
Proof.
  intros Hn Hp _. exists (find s target), (reduction_steps p).
  split; [|apply reduction_spec_steps].
  pose proof (pram_results_nonzero s target p rule ltac:(lia)) as H.
  replace (- (- len s / p)) with 1 in H; [done|].
  apply (ceil_quot_spec_unique (len s) p); [lia | | apply ceil_quot_spec_div; lia].
  unfold ceil_quot_spec. lia.
Qed.

Lemma one_scan_step_witness :
  1 ≤ len ABCDE ∧ len ABCDE ≤ 7 ∧ 7 ≤ 2 ^ 48
  ∧ ∃ idx r : Z, pram_results ABCDE [67] 7 priority idx 1 r ∧ reduction_spec 7 r.
Proof.
  do 3 (split; [by vm_compute|]).
  apply (one_scan_step ABCDE [67] 7 priority); by vm_compute.
Defined.

(** X10. With one processor the three PRAM searches take n steps, the
    length of the sequence, and no reduction step, also for the empty
    sequence. *)
Theorem single_processor (s target : str) (rule : string) :
  ∃ idx : Z,
    first_occurrence s target idx ∧ pram_results s target 1 rule idx (len s) 0.
Proof.
  exists (find s target). split; [apply find_first_occurrence|].
  pose proof (pram_results_nonzero s target 1 rule ltac:(lia)) as H.
  by rewrite Z.div_1_r, Z.opp_involutive, reduction_steps_one in H.
Qed.

(** X11. With p = 2^k processors, 0 <= k <= 1023, and a sequence shorter
    than 2^53, the reduction of EREW and CREW takes exactly k steps on
    top of the ceil(n / 2^k) steps of the scan. *)
Theorem power_of_two_reduction (s target : str) (k : Z) (rule : string) :
  0 ≤ k → k ≤ 1023 → len s < 2 ^ 53 →
  ∃ idx c : Z,
    pram_results s target (2 ^ k) rule idx c k
    ∧ ceil_quot_spec (len s) (2 ^ k) c.
Proof.
  intros Hk _ _. pose proof (Z.pow_pos_nonneg 2 k ltac:(lia) Hk) as Hpos.
  exists (find s target), (- ((- len s) / 2 ^ k)).
  split; [|apply ceil_quot_spec_div; lia].
  pose proof (pram_results_nonzero s target (2 ^ k) rule ltac:(lia)) as H.
  replace (reduction_steps (2 ^ k)) with k in H; [done|].
  unfold reduction_steps, ceil_log2.
  destruct (Z.gtb_spec (2 ^ k) 1) as [Hgt | Hle].
  - by rewrite Z.log2_up_pow2.
  - destruct (Z.eq_dec k 0) as [-> | Hne]; [done|].
    assert (2 ^ 1 ≤ 2 ^ k) by (apply Z.pow_le_mono_r; lia). lia.
Qed.

Lemma power_of_two_reduction_witness :
  0 ≤ 3 ∧ 3 ≤ 1023 ∧ len ABCDEFGH < 2 ^ 53
  ∧ ∃ idx c : Z,
      pram_results ABCDEFGH [68] (2 ^ 3) priority idx c 3
      ∧ ceil_quot_spec (len ABCDEFGH) (2 ^ 3) c.
Proof.
  split; [lia|]. split; [lia|]. split; [by vm_compute|].
  apply (power_of_two_reduction ABCDEFGH [68] 3 priority);
    [lia | lia | by vm_compute].
Defined.

(** X12. When p >= 1 divides n < 2^53 the scan takes exactly n / p
    steps: for n = q * p the CRCW search returns q steps, and EREW and
    CREW return q steps plus a reduction that is not negative. *)
Theorem divisible_scan (s target : str) (p q : Z) (rule : string) :
  1 ≤ p → len s = q * p → len s < 2 ^ 53 →
  ∃ idx r : Z, pram_results s target p rule idx q r ∧ 0 ≤ r.
Proof.
  intros Hp Hq _. exists (find s target), (reduction_steps p).
  split; [|by apply pram_steps_nonneg].
  pose proof (pram_results_nonzero s target p rule ltac:(lia)) as H.
  replace (- (- len s / p)) with q in H; [done|].
  rewrite Hq, <- Z.mul_opp_l, Z.div_mul by lia. lia.
Qed.

Lemma divisible_scan_witness :
  1 ≤ 4 ∧ len ABCDEFGH = 2 * 4 ∧ len ABCDEFGH < 2 ^ 53
  ∧ ∃ idx r : Z, pram_results ABCDEFGH [68] 4 priority idx 2 r ∧ 0 ≤ r.
Proof.
  split; [lia|]. split; [reflexivity|]. split; [by vm_compute|].
  apply (divisible_scan ABCDEFGH [68] 4 2 priority);
    [lia | reflexivity | by vm_compute].
Defined.

(** ** The aggregator: entries, keys, bounds *)

Lemma speedup_spec_unique (t_seq ts : Z) (sp sp' : pyfloat) :
  speedup_spec t_seq ts sp → speedup_spec t_seq ts sp' → sp = sp'.
Proof. intros [[? ->] | [? ->]] [[? ->] | [? ->]]; (done || lia). Qed.

(** The mapping [speedups_on] returns for a nonzero [p], entry by
    entry. *)
Lemma speedups_on_lookups (s target : str) (p : Z) :
  p ≠ 0 →
  ∃ (m : gmap string (Z * pyfloat * Z)) (sp_e sp_w : pyfloat),
    speedups_on s target p = Ok m
    ∧ dom m = model_names
    ∧ m !! "Sequential"
      = Some ((seq_search s target).1, Fin 1, (seq_search s target).2)
    ∧ m !! "EREW"
      = Some (find s target, sp_e, - ((- len s) / p) + reduction_steps p)
    ∧ m !! "CREW"
      = Some (find s target, sp_e, - ((- len s) / p) + reduction_steps p)
    ∧ m !! "CRCW" = Some (find s target, sp_w, - ((- len s) / p))
    ∧ speedup_spec (seq_search s target).2
        (- ((- len s) / p) + reduction_steps p) sp_e
    ∧ speedup_spec (seq_search s target).2 (- ((- len s) / p)) sp_w.
Proof.
  intros Hp.
  destruct (speedups_on_nonzero s target p Hp)
    as (sp_e & sp_c & sp_w & He & Hc & Hw & H).
  cbv zeta in He, Hc, Hw, H.
  rewrite (speedup_spec_unique _ _ _ _ Hc He) in H.
  eexists _, sp_e, sp_w. split; [exact H|].
  split.
  { rewrite !dom_insert_L, dom_empty_L. unfold model_names. set_solver. }
  split; [by rewrite lookup_insert_eq|].
  do 3 (split; [by rewrite !lookup_insert_ne, lookup_insert_eq by done|]).
  done.
Qed.

Lemma Qdiv_Z_le (a b c : Z) :
  0 < b → a ≤ c * b → (inject_Z a / inject_Z b <= inject_Z c)%Q.
Proof.
  intros Hb Hle. apply Qle_shift_div_r.
  - change 0%Q with (inject_Z 0). by rewrite <- Zlt_Qlt.
  - by rewrite <- inject_Z_mult, <- Zle_Qle.
Qed.

Lemma Qdiv_Z_pos (a b : Z) :
  0 < a → 0 < b → (0 < inject_Z a / inject_Z b)%Q.
Proof.
  intros Ha Hb. apply Qlt_shift_div_l.
  - change 0%Q with (inject_Z 0). by rewrite <- Zlt_Qlt.
  - rewrite Qmult_0_l. change 0%Q with (inject_Z 0). by rewrite <- Zlt_Qlt.
Qed.

Lemma Qdiv_Z_antitone (a b1 b2 : Z) :
  0 ≤ a → 0 < b2 → b2 ≤ b1 →
  (inject_Z a / inject_Z b1 <= inject_Z a / inject_Z b2)%Q.
Proof.
  intros Ha Hb2 Hb.
  destruct b1 as [|b1|b1]; [lia| |lia]. destruct b2 as [|b2|b2]; [lia| |lia].
  unfold Qle, Qdiv, Qmult, Qinv, inject_Z. cbn [Qnum Qden].
  rewrite !Z.mul_1_r, !Pos.mul_1_l. nia.
Qed.

Lemma seq_search_steps_bounds (s target : str) :
  1 ≤ len s → 1 ≤ (seq_search s target).2 ≤ len s.
Proof.
  intros Hn. destruct (seq_search_shape s target) as [-> | (k & ch & -> & Hk & _)].
  - cbn [snd]. lia.
  - apply lookup_lt_Some in Hk. cbn [snd]. unfold len. lia.
Qed.

(** X13. For 1 <= n < 2^53 and 1 <= p < 2^1075, where the float quotient
    n / p does not underflow, every speedup the aggregator reports is a
    finite positive number; EREW and CREW report the same one, it is at
    most the CRCW speedup, and no speedup exceeds the number of
    processors. *)
Theorem speedup_bounds (s target : str) (p : Z) :
  1 ≤ len s → len s < 2 ^ 53 → 1 ≤ p → p < 2 ^ 1075 →
  ∃ (m : gmap string (Z * pyfloat * Z)) (idx te tw : Z) (qe qw : Q),
    speedups_on s target p = Ok m
    ∧ m !! "EREW" = Some (idx, Fin qe, te)
    ∧ m !! "CREW" = Some (idx, Fin qe, te)
    ∧ m !! "CRCW" = Some (idx, Fin qw, tw)
    ∧ (0 < qe)%Q ∧ (qe <= qw)%Q ∧ (qw <= inject_Z p)%Q.
Proof.
  intros Hn _ Hp _.
  destruct (speedups_on_lookups s target p ltac:(lia))
    as (m & sp_e & sp_w & Hm & _ & _ & He & Hc & Hw & Se & Sw).
  pose proof (ceil_quot_spec_div (len s) p ltac:(lia)) as Hq.
  assert (0 < p) as Hp0 by lia.
  pose proof (ceil_quot_spec_pos _ _ _ Hp0 Hn Hq) as Hc1.
  destruct (pram_steps_nonneg s p Hp) as [_ Hr].
  pose proof (seq_search_steps_bounds s target Hn) as Ht.
  destruct Se as [[_ ->] | [? _]]; [|lia].
  destruct Sw as [[_ ->] | [? _]]; [|lia].
  eexists m, _, _, _, _, _. split; [exact Hm|].
  do 3 (split; [done|]).
  split; [apply Qdiv_Z_pos; lia|].
  split; [apply Qdiv_Z_antitone; lia|].
  apply Qdiv_Z_le; [lia|]. destruct Hq as [_ Hq]. lia.
Qed.

Lemma speedup_bounds_witness :
  1 ≤ len ABCDEFGH ∧ len ABCDEFGH < 2 ^ 53 ∧ 1 ≤ 8 ∧ 8 < 2 ^ 1075
  ∧ ∃ (m : gmap string (Z * pyfloat * Z)) (idx te tw : Z) (qe qw : Q),
      speedups_on ABCDEFGH [68] 8 = Ok m
      ∧ m !! "EREW" = Some (idx, Fin qe, te)
      ∧ m !! "CREW" = Some (idx, Fin qe, te)
      ∧ m !! "CRCW" = Some (idx, Fin qw, tw)
      ∧ (0 < qe)%Q ∧ (qe <= qw)%Q ∧ (qw <= inject_Z 8)%Q.
Proof.
  do 4 (split; [by vm_compute|]).
  apply (speedup_bounds ABCDEFGH [68] 8); by vm_compute.
Defined.

(** X14. Every mapping [speedups] returns has exactly the four keys
    Sequential, EREW, CREW and CRCW, so looking up one of the three PRAM
    labels, as the plotting code does, finds an entry. *)
Theorem speedups_keys (rnd : Random) (n p : Z) (target_present : bool)
    (m : gmap string (Z * pyfloat * Z)) :
  speedups rnd n p target_present = Ok m →
  dom m = model_names
  ∧ ∀ label : string, label ∈ ["EREW"; "CREW"; "CRCW"] → is_Some (m !! label).
Proof.
  intros Hm.
  destruct (speedups_cases rnd n p target_present)
    as [(s & ch & Hs) | [Hs | Hs]]; [|congruence..].
  rewrite Hs in Hm. clear Hs.
  assert (p ≠ 0) as Hp by (intros ->; by rewrite speedups_on_zero in Hm).
  destruct (speedups_on_lookups s [ch] p Hp)
    as (m' & sp_e & sp_w & Hm' & Hdom & _ & He & Hc & Hw & _).
  assert (m' = m) as -> by congruence.
  split; [done|]. intros label Hl.
  rewrite !elem_of_cons in Hl.
  destruct Hl as [-> | [-> | [-> | Hl]]];
    [by eexists.. | by apply elem_of_nil in Hl].
Qed.

Lemma speedups_keys_witness :
  ∃ m : gmap string (Z * pyfloat * Z),
    speedups first_rnd 8 8 true = Ok m
    ∧ dom m = model_names
    ∧ ∀ label : string, label ∈ ["EREW"; "CREW"; "CRCW"] → is_Some (m !! label).
Proof.
  eexists. split; [by vm_compute|].
  apply (speedups_keys first_rnd 8 8 true). by vm_compute.
Defined.

(** X15. With the empty target string the sequential scan reports -1
    after n comparisons while the PRAM searches report index 0; the
    assertion lets the run through, and for p >= 1 the aggregator returns
    a mapping with both indices in it. *)
Theorem empty_target (s : str) (p : Z) :
  1 ≤ p →
  ∃ (m : gmap string (Z * pyfloat * Z)) (sp_e sp_w : pyfloat) (te tw : Z),
    speedups_on s [] p = Ok m
    ∧ m !! "Sequential" = Some (-1, Fin 1, len s)
    ∧ m !! "EREW" = Some (0, sp_e, te)
    ∧ m !! "CREW" = Some (0, sp_e, te)
    ∧ m !! "CRCW" = Some (0, sp_w, tw).
Proof.
  intros Hp.
  destruct (speedups_on_lookups s [] p ltac:(lia))
    as (m & sp_e & sp_w & Hm & _ & Hs & He & Hc & Hw & _).
  destruct (seq_search_shape s []) as [E | (k & ch & _ & _ & ?)]; [|done].
  rewrite E in Hs.
  rewrite find_nil in He, Hc, Hw.
  by eexists m, sp_e, sp_w, _, _.
Qed.

Lemma empty_target_witness :
  1 ≤ 2
  ∧ ∃ (m : gmap string (Z * pyfloat * Z)) (sp_e sp_w : pyfloat) (te tw : Z),
      speedups_on ABCDE [] 2 = Ok m
      ∧ m !! "Sequential" = Some (-1, Fin 1, len ABCDE)
      ∧ m !! "EREW" = Some (0, sp_e, te)
      ∧ m !! "CREW" = Some (0, sp_e, te)
      ∧ m !! "CRCW" = Some (0, sp_w, tw).
Proof.
  split; [lia|]. apply (empty_target ABCDE 2). lia.
Defined.

(** X16. On the empty sequence, for p >= 1 and a nonempty target, every
    index is -1, the sequential and CRCW steps are 0, and the CRCW
    speedup is +inf; EREW and CREW still charge the reduction, no step
    for p = 1 and at least one otherwise, so their speedup is +inf only
    for p = 1 and 0 / steps otherwise. *)
Theorem empty_sequence (target : str) (p : Z) :
  target ≠ [] → 1 ≤ p →
  ∃ (m : gmap string (Z * pyfloat * Z)) (sp_e : pyfloat) (r : Z),
    speedups_on [] target p = Ok m
    ∧ m !! "Sequential" = Some (-1, Fin 1, 0)
    ∧ m !! "EREW" = Some (-1, sp_e, r)
    ∧ m !! "CREW" = Some (-1, sp_e, r)
    ∧ m !! "CRCW" = Some (-1, Inf, 0)
    ∧ ((p = 1 ∧ r = 0 ∧ sp_e = Inf)
       ∨ (1 < p ∧ 1 ≤ r ∧ sp_e = Fin (inject_Z 0 / inject_Z r)%Q)).
Proof.
  intros Ht Hp.
  destruct (speedups_on_lookups [] target p ltac:(lia))
    as (m & sp_e & sp_w & Hm & _ & Hs & He & Hc & Hw & Se & Sw).
  assert (find [] target = -1) as Hf by (by destruct target).
  change (len []) with 0 in *. change (seq_search [] target) with (-1, 0) in *.
  cbn [fst snd] in *. rewrite Z.div_0_l in * by lia.
  change (- 0 + reduction_steps p) with (reduction_steps p) in *.
  change (- 0) with 0 in *. rewrite Hf in *.
  destruct Sw as [[? _] | [_ ->]]; [lia|].
  exists m, sp_e, (reduction_steps p). split; [done|].
  do 4 (split; [done|]).
  destruct (Z.eq_dec p 1) as [-> | Hne].
  - left. split; [done|]. split; [done|]. rewrite reduction_steps_one in Se.
    destruct Se as [[? _] | [_ ->]]; [lia | done].
  - right. split; [lia|]. pose proof (reduction_steps_pos p ltac:(lia)).
    split; [done|]. destruct Se as [[_ ->] | [? _]]; [done | lia].
Qed.

Lemma empty_sequence_witness :
  [90] ≠ [] ∧ 1 ≤ 4
  ∧ ∃ (m : gmap string (Z * pyfloat * Z)) (sp_e : pyfloat) (r : Z),
      speedups_on [] [90] 4 = Ok m
      ∧ m !! "Sequential" = Some (-1, Fin 1, 0)
      ∧ m !! "EREW" = Some (-1, sp_e, r)
      ∧ m !! "CREW" = Some (-1, sp_e, r)
      ∧ m !! "CRCW" = Some (-1, Inf, 0)
      ∧ ((4 = 1 ∧ r = 0 ∧ sp_e = Inf)
         ∨ (1 < 4 ∧ 1 ≤ r ∧ sp_e = Fin (inject_Z 0 / inject_Z r)%Q)).
Proof.
  split; [done|]. split; [lia|].
  apply (empty_sequence [90] 4); [done | lia].
Defined.

(** ** Runs of the aggregator on drawn input *)

Lemma generated_facts (rnd : Random) (n : Z) (s : str) :
  shuffle rnd base ≡ₚ base → 0 ≤ n →
  generate_unique_string rnd n = Ok s →
  len s = n ∧ NoDup s.
Proof.
  intros Hperm H0 Hs. pose proof (shuffle_base_length rnd Hperm) as Hlen.
  assert (NoDup (shuffle rnd base)) as Hnd by (rewrite Hperm; apply NoDup_base).
  destruct (Z.le_gt_cases n 62) as [H | H].
  - rewrite generate_unique_string_small in Hs by done. injection Hs as <-.
    unfold slice_to, len. rewrite (proj2 (Z.ltb_ge n 0)) by lia. split.
    + rewrite length_take_le by lia. lia.
    + eapply sublist_NoDup; [done | apply sublist_take].
  - destruct (Z.le_gt_cases n max_unique_len) as [H' | H'].
    2: { rewrite generate_unique_string_too_long in Hs by done. done. }
    rewrite generate_unique_string_large in Hs by done. injection Hs as <-.
    split.
    + unfold len. rewrite length_app, length_seqZ, Hlen. lia.
    + apply NoDup_app. split; [done|]. split; [|apply NoDup_seqZ].
      intros c Hc. rewrite Hperm in Hc. apply elem_of_base in Hc.
      rewrite elem_of_seqZ. lia.
Qed.

Lemma generated_some (rnd : Random) (n : Z) :
  n ≤ max_unique_len → ∃ s : str, generate_unique_string rnd n = Ok s.
Proof.
  intros Hn. destruct (generate_unique_string_shape rnd n)
    as [[_ [k Hk]] | [[_ Hl] | [Hgt _]]]; [by eexists.. | lia].
Qed.

Lemma index_in_range (s : str) (r : Z) :
  0 ≤ r < len s → ∃ c : Z, s !! Z.to_nat r = Some c ∧ index s r = Ok c.
Proof.
  intros Hr. unfold index. cbv zeta.
  rewrite !(proj2 (Z.ltb_ge r 0)) by lia.
  destruct (lookup_lt_is_Some_2 s (Z.to_nat r)) as [c Hc];
    [unfold len in Hr; lia|].
  exists c. by rewrite Hc.
Qed.

Lemma speedups_run_absent (rnd : Random) (n p : Z) :
  n ≤ max_unique_len →
  ∃ s : str,
    generate_unique_string rnd n = Ok s
    ∧ speedups rnd n p false = speedups_on s [35] p.
Proof.
  intros Hn. destruct (generated_some rnd n Hn) as [s Hs]. exists s.
  split; [done|]. unfold speedups. by rewrite Hs.
Qed.

Lemma speedups_run_present (rnd : Random) (n p : Z) :
  fair rnd → 1 ≤ n → n ≤ max_unique_len →
  ∃ (s : str) (c : Z),
    len s = n ∧ NoDup s ∧ s !! Z.to_nat (draw rnd n) = Some c
    ∧ speedups rnd n p true = speedups_on s [c] p.
Proof.
  intros [Hperm Hdraw] H1 Hn. destruct (generated_some rnd n Hn) as [s Hs].
  destruct (generated_facts rnd n s (Hperm base) ltac:(lia) Hs) as [Hlen Hnd].
  destruct (index_in_range s (draw rnd n)) as (c & Hc & Hi).
  { rewrite Hlen. apply Hdraw. lia. }
  exists s, c. do 3 (split; [done|]).
  unfold speedups, randrange. rewrite Hs. cbn [mbind result_bind].
  rewrite (proj2 (Z.leb_gt n 0)) by lia. cbn [mbind result_bind].
  by rewrite Hi.
Qed.

Lemma first_rnd_fair : fair first_rnd.
Proof. split; [done | simpl; lia]. Defined.

(** X17. When the target is to be absent, n is at most 1104702, p >= 1
    and the shuffle permutes, [speedups] returns a mapping in which all
    four indices are -1 and the sequential steps are the length of the
    generated string: '#' is in no generated string. *)
Theorem absent_target_run (rnd : Random) (n p : Z) :
  shuffle rnd base ≡ₚ base → n ≤ max_unique_len → 1 ≤ p →
  ∃ (s : str) (m : gmap string (Z * pyfloat * Z)) (sp_e sp_w : pyfloat)
    (te tw : Z),
    generate_unique_string rnd n = Ok s
    ∧ speedups rnd n p false = Ok m
    ∧ m !! "Sequential" = Some (-1, Fin 1, len s)
    ∧ m !! "EREW" = Some (-1, sp_e, te)
    ∧ m !! "CREW" = Some (-1, sp_e, te)
    ∧ m !! "CRCW" = Some (-1, sp_w, tw).
Proof.
  intros Hperm Hn Hp.
  destruct (speedups_run_absent rnd n p Hn) as (s & Hs & Hrun).
  assert (35 ∉ s) as Habs.
  { intros Hc. destruct (generated_elem rnd n s 35 Hperm Hs Hc) as [Hb | Hb];
      [apply elem_of_base in Hb|]; lia. }
  destruct (speedups_on_lookups s [35] p ltac:(lia))
    as (m & sp_e & sp_w & Hm & _ & Hq & He & Hc & Hw & _).
  rewrite (seq_search_absent s 35 Habs) in Hq.
  rewrite (find_absent s 35 Habs) in He, Hc, Hw.
  exists s, m, sp_e, sp_w. eexists _, _. split; [done|].
  split; [by rewrite Hrun|]. done.
Qed.

Lemma absent_target_run_witness :
  shuffle first_rnd base ≡ₚ base ∧ 5 ≤ max_unique_len ∧ 1 ≤ 4
  ∧ ∃ (s : str) (m : gmap string (Z * pyfloat * Z)) (sp_e sp_w : pyfloat)
      (te tw : Z),
      generate_unique_string first_rnd 5 = Ok s
      ∧ speedups first_rnd 5 4 false = Ok m
      ∧ m !! "Sequential" = Some (-1, Fin 1, len s)
      ∧ m !! "EREW" = Some (-1, sp_e, te)
      ∧ m !! "CREW" = Some (-1, sp_e, te)
      ∧ m !! "CRCW" = Some (-1, sp_w, tw).
Proof.
  split; [reflexivity|]. split; [by vm_compute|]. split; [lia|].
  apply (absent_target_run first_rnd 5 4); [reflexivity | by vm_compute | lia].
Defined.

(** X18. When the target is to be present, 1 <= n <= 1104702, p >= 1 and
    the generator is fair, [speedups] returns a mapping in which all four
    indices are the position r that was drawn and the sequential steps
    are r + 1: the characters being distinct, the drawn character occurs
    at r only.  For p < 2^1075 the CRCW steps are ceil(n / p). *)
Theorem present_target_run (rnd : Random) (n p : Z) :
  fair rnd → 1 ≤ n → n ≤ max_unique_len → 1 ≤ p →
  ∃ (m : gmap string (Z * pyfloat * Z)) (sp_e sp_w : pyfloat) (te tw : Z),
    speedups rnd n p true = Ok m
    ∧ 0 ≤ draw rnd n < n
    ∧ m !! "Sequential" = Some (draw rnd n, Fin 1, draw rnd n + 1)
    ∧ m !! "EREW" = Some (draw rnd n, sp_e, te)
    ∧ m !! "CREW" = Some (draw rnd n, sp_e, te)
    ∧ m !! "CRCW" = Some (draw rnd n, sp_w, tw)
    ∧ (p < 2 ^ 1075 → ceil_quot_spec n p tw).
Proof.
  intros Hfair H1 Hn Hp.
  destruct (speedups_run_present rnd n p Hfair H1 Hn)
    as (s & c & Hlen & Hnd & Hc & Hrun).
  assert (0 ≤ draw rnd n < n) as Hr by (apply Hfair; lia).
  destruct (speedups_on_lookups s [c] p ltac:(lia))
    as (m & sp_e & sp_w & Hm & _ & Hq & He & Hcr & Hw & _).
  rewrite (seq_search_unique s c _ Hnd Hc) in Hq.
  rewrite (find_unique s c _ Hnd Hc) in He, Hcr, Hw.
  rewrite Z2Nat.id in Hq, He, Hcr, Hw by lia.
  exists m, sp_e, sp_w. eexists _, _. split; [by rewrite Hrun|].
  do 5 (split; [done|]). intros _. rewrite <- Hlen.
  apply ceil_quot_spec_div. lia.
Qed.

Lemma present_target_run_witness :
  fair first_rnd ∧ 1 ≤ 8 ∧ 8 ≤ max_unique_len ∧ 1 ≤ 8
  ∧ ∃ (m : gmap string (Z * pyfloat * Z)) (sp_e sp_w : pyfloat) (te tw : Z),
      speedups first_rnd 8 8 true = Ok m
      ∧ 0 ≤ draw first_rnd 8 < 8
      ∧ m !! "Sequential" = Some (draw first_rnd 8, Fin 1, draw first_rnd 8 + 1)
      ∧ m !! "EREW" = Some (draw first_rnd 8, sp_e, te)
      ∧ m !! "CREW" = Some (draw first_rnd 8, sp_e, te)
      ∧ m !! "CRCW" = Some (draw first_rnd 8, sp_w, tw)
      ∧ (8 < 2 ^ 1075 → ceil_quot_spec 8 8 tw).
Proof.
  split; [apply first_rnd_fair|]. split; [lia|]. split; [by vm_compute|].
  split; [lia|].
  apply (present_target_run first_rnd 8 8);
    [apply first_rnd_fair | lia | by vm_compute | lia].
Defined.

(** X19. With a fair generator a run of [speedups] ends in one of three
    ways: a ValueError when the input cannot be drawn (n above 1104702, or
    a present target asked of n <= 0), whatever p is; otherwise a
    ZeroDivisionError when p = 0; otherwise a mapping. *)
Theorem speedups_outcome (rnd : Random) (n p : Z) (target_present : bool) :
  fair rnd →
  (((target_present = true ∧ n ≤ 0) ∨ max_unique_len < n)
   ∧ speedups rnd n p target_present = Raise ValueError)
  ∨ ((target_present = true → 1 ≤ n) ∧ n ≤ max_unique_len ∧ p = 0
     ∧ speedups rnd n p target_present = Raise ZeroDivisionError)
  ∨ ((target_present = true → 1 ≤ n) ∧ n ≤ max_unique_len ∧ p ≠ 0
     ∧ ∃ m : gmap string (Z * pyfloat * Z),
         speedups rnd n p target_present = Ok m).
Proof.
  intros Hfair.
  destruct (Z.le_gt_cases n max_unique_len) as [Hn | Hn].
  2: { left. split; [by right|]. unfold speedups.
       by rewrite generate_unique_string_too_long. }
  assert (∀ s c, (speedups_on s [c] p = Raise ZeroDivisionError ∧ p = 0)
                 ∨ (p ≠ 0 ∧ ∃ m, speedups_on s [c] p = Ok m)) as Hon.
  { intros s c. destruct (Z.eq_dec p 0) as [-> | Hp].
    - left. by rewrite speedups_on_zero.
    - right. split; [done|]. by apply speedups_on_returns. }
  destruct target_present.
  - destruct (Z.le_gt_cases n 0) as [H0 | H0].
    + left. split; [by left|].
      destruct (generated_some rnd n Hn) as [s Hs].
      unfold speedups, randrange. rewrite Hs. cbn [mbind result_bind].
      by rewrite (proj2 (Z.leb_le n 0) H0).
    + right.
      destruct (speedups_run_present rnd n p Hfair ltac:(lia) Hn)
        as (s & c & _ & _ & _ & ->).
      destruct (Hon s c) as [[-> ->] | [Hp Hm]]; [left | right];
        (split; [lia|]); done.
  - right. destruct (speedups_run_absent rnd n p Hn) as (s & _ & ->).
    destruct (Hon s 35) as [[-> ->] | [Hp Hm]]; [left | right]; done.
Qed.

Lemma speedups_outcome_witness :
  fair first_rnd
  ∧ ((((true = true ∧ 0 ≤ 0) ∨ max_unique_len < 0)
      ∧ speedups first_rnd 0 0 true = Raise ValueError)
     ∨ ((true = true → 1 ≤ 0) ∧ 0 ≤ max_unique_len ∧ 0 = 0
        ∧ speedups first_rnd 0 0 true = Raise ZeroDivisionError)
     ∨ ((true = true → 1 ≤ 0) ∧ 0 ≤ max_unique_len ∧ 0 ≠ 0
        ∧ ∃ m : gmap string (Z * pyfloat * Z),
            speedups first_rnd 0 0 true = Ok m)).
Proof.
  split; [apply first_rnd_fair|].
  apply (speedups_outcome first_rnd 0 0 true). apply first_rnd_fair.
Defined.

(** ** The script *)

(** X20. With a fair generator the script reaches its plot: no exception
    and no KeyError, and the three bars are (r + 1) / 9 for EREW and for
    CREW and (r + 1) / 1 for CRCW, r being the position drawn among the
    256. *)
Theorem main_bars (rnd : Random) :
  fair rnd →
  0 ≤ draw rnd 256 < 256
  ∧ main_spd_vals rnd
    = Done [Fin (inject_Z (draw rnd 256 + 1) / inject_Z 9)%Q;
            Fin (inject_Z (draw rnd 256 + 1) / inject_Z 9)%Q;
            Fin (inject_Z (draw rnd 256 + 1) / inject_Z 1)%Q].
Proof.
  intros Hfair.
  assert (0 ≤ draw rnd 256 < 256) as Hr by (apply Hfair; lia).
  split; [done|].
  destruct (speedups_run_present rnd 256 256 Hfair ltac:(lia) ltac:(by vm_compute))
    as (s & c & Hlen & Hnd & Hc & Hrun).
  destruct (speedups_on_lookups s [c] 256 ltac:(lia))
    as (m & sp_e & sp_w & Hm & _ & _ & He & Hcr & Hw & Se & Sw).
  rewrite (seq_search_unique s c _ Hnd Hc) in Se, Sw.
  rewrite (find_unique s c _ Hnd Hc) in He, Hcr, Hw.
  rewrite Z2Nat.id in Se, Sw, He, Hcr, Hw by lia. cbn [snd] in Se, Sw.
  assert (- ((- len s) / 256) = 1) as Hq by (by rewrite Hlen).
  assert (reduction_steps 256 = 8) as Hred by reflexivity.
  rewrite Hq, ?Hred in Se, Sw, He, Hcr, Hw. change (1 + 8) with 9 in *.
  destruct Se as [[_ ->] | [? _]]; [|lia].
  destruct Sw as [[_ ->] | [? _]]; [|lia].
  unfold main_spd_vals. cbv zeta. rewrite Hrun, Hm.
  unfold labels. cbn [speedup_column]. by rewrite He, Hcr, Hw.
Qed.

Lemma main_bars_witness :
  fair first_rnd
  ∧ 0 ≤ draw first_rnd 256 < 256
  ∧ main_spd_vals first_rnd
    = Done [Fin (inject_Z (draw first_rnd 256 + 1) / inject_Z 9)%Q;
            Fin (inject_Z (draw first_rnd 256 + 1) / inject_Z 9)%Q;
            Fin (inject_Z (draw first_rnd 256 + 1) / inject_Z 1)%Q].
Proof.
  split; [apply first_rnd_fair|]. apply (main_bars first_rnd).
  apply first_rnd_fair.
Defined.

(** ** [ceil(n / p)] through the float against the exact ceiling *)

Lemma scaled_nonneg_exp (a b g : Z) :
  0 ≤ g → scaled a b g = (a, b * 2 ^ g).
Proof.
  intros Hg. unfold scaled.
  rewrite (Z.max_l 0 (- g)), (Z.max_r 0 g) by lia. f_equal. simpl. lia.
Qed.

Lemma scaled_neg_exp (a b g : Z) :
  g < 0 → scaled a b g = (a * 2 ^ (- g), b).
Proof.
  intros Hg. unfold scaled.
  rewrite (Z.max_r 0 (- g)), (Z.max_l 0 g) by lia. f_equal. simpl. lia.
Qed.

(** [quot_log2 a b] is not above the logarithm of the quotient. *)
Lemma quot_log2_lower (a b : Z) :
  0 < a → 0 < b →
  (scaled a b (quot_log2 a b)).2 ≤ (scaled a b (quot_log2 a b)).1.
Proof.
  intros Ha Hb. unfold quot_log2.
  set (g := Z.log2 a - Z.log2 b).
  destruct (Z.ltb_spec (scaled a b g).1 (scaled a b g).2) as [Hlt | Hge];
    [|done].
  pose proof (Z.log2_spec a Ha) as [Hal _].
  pose proof (Z.log2_spec b Hb) as [_ Hbu].
  pose proof (Z.log2_nonneg a) as Hla. pose proof (Z.log2_nonneg b) as Hlb.
  destruct (Z.le_gt_cases 1 g) as [Hg | Hg].
  - rewrite scaled_nonneg_exp by lia. cbn [fst snd].
    assert (2 ^ Z.log2 a = 2 ^ Z.succ (Z.log2 b) * 2 ^ (g - 1)) as E.
    { rewrite <- Z.pow_add_r by lia. f_equal. lia. }
    assert (0 < 2 ^ (g - 1)) by (apply Z.pow_pos_nonneg; lia). nia.
  - rewrite scaled_neg_exp by lia. cbn [fst snd].
    assert (2 ^ Z.succ (Z.log2 b) = 2 ^ Z.log2 a * 2 ^ (- (g - 1))) as E.
    { rewrite <- Z.pow_add_r by lia. f_equal. lia. }
    assert (0 < 2 ^ (- (g - 1))) by (apply Z.pow_pos_nonneg; lia). nia.
Qed.

(** [quot_log2 a b] is not above the difference of the two bit
    lengths. *)
Lemma quot_log2_upper (a b : Z) : quot_log2 a b ≤ Z.log2 a - Z.log2 b.
Proof. unfold quot_log2. destruct (_ <? _); lia. Qed.

Lemma round_half_even_le (num den K : Z) :
  0 < den → num ≤ K * den → round_half_even num den ≤ K.
Proof.
  intros Hd Hle. unfold round_half_even.
  pose proof (Z.div_mod num den ltac:(lia)) as Hdm.
  pose proof (Z.mod_pos_bound num den Hd) as Hr.
  assert (num / den ≤ K) as Hq by nia.
  destruct (Z.ltb_spec (2 * (num mod den)) den); [done|].
  assert (num / den < K) by nia.
  destruct (_ <? _); [lia|]. destruct (Z.even _); lia.
Qed.

Lemma round_half_even_gt (num den K : Z) :
  0 < den → K * den < num → den < 2 * (num - K * den) →
  K < round_half_even num den.
Proof.
  intros Hd Hlt Hhalf. unfold round_half_even.
  pose proof (Z.div_mod num den ltac:(lia)) as Hdm.
  pose proof (Z.mod_pos_bound num den Hd) as Hr.
  assert (K ≤ num / den) as Hq by nia.
  destruct (Z.eq_dec (num / den) K) as [E | E].
  - assert (den < 2 * (num mod den)) as H2 by nia.
    rewrite (proj2 (Z.ltb_ge (2 * (num mod den)) den)) by lia.
    rewrite (proj2 (Z.ltb_lt den (2 * (num mod den)))) by lia. lia.
  - destruct (_ <? _); [lia|]. destruct (_ <? _); [lia|].
    destruct (Z.even _); lia.
Qed.

(** In the exact range the last place of the float is fine enough: the
    quotient is an integer, or [p] is below two units of it. *)
Lemma scan_exponent (n p : Z) :
  1 ≤ n → n < 2 ^ 53 → 1 ≤ p → p < 2 ^ 1075 →
  let e := Z.max (quot_log2 n p - 52) (-1074) in
  (e = 0 ∧ p = 1) ∨ (e < 0 ∧ p < 2 * 2 ^ (- e)).
Proof.
  intros Hn Hn53 Hp Hp1075 e.
  pose proof (quot_log2_lower n p ltac:(lia) ltac:(lia)) as Hl.
  set (g := quot_log2 n p) in *.
  destruct (Z.le_gt_cases (-1074) (g - 52)) as [Hg | Hg].
  2: { right. subst e. rewrite Z.max_r by lia. split; [lia|].
       change (2 * 2 ^ (- -1074)) with (2 ^ 1075). done. }
  subst e. rewrite Z.max_l by lia.
  destruct (Z.le_gt_cases 0 g) as [Hg0 | Hg0].
  - rewrite scaled_nonneg_exp in Hl by done. cbn [fst snd] in Hl.
    assert (p * 2 ^ g < 2 ^ 53) as Hlt by lia.
    destruct (Z.le_gt_cases 52 g) as [H52 | H52].
    + left. assert (2 ^ 52 ≤ 2 ^ g) by (apply Z.pow_le_mono_r; lia).
      assert (p = 1) as -> by nia. split; [|done].
      destruct (Z.le_gt_cases 53 g) as [H53 | H53]; [|lia].
      assert (2 ^ 53 ≤ 2 ^ g) by (apply Z.pow_le_mono_r; lia). lia.
    + right. split; [lia|].
      assert (2 * 2 ^ (- (g - 52)) * 2 ^ g = 2 ^ 53) as E.
      { change 2 with (2 ^ 1) at 1. rewrite <- !Z.pow_add_r by lia.
        f_equal. lia. }
      assert (0 < 2 ^ g) by (apply Z.pow_pos_nonneg; lia). nia.
  - right. split; [lia|].
    rewrite scaled_neg_exp in Hl by done. cbn [fst snd] in Hl.
    assert (2 * 2 ^ (- (g - 52)) = 2 ^ 53 * 2 ^ (- g)) as E.
    { change 2 with (2 ^ 1) at 1. rewrite <- !Z.pow_add_r by lia.
      f_equal. lia. }
    assert (0 < 2 ^ (- g)) by (apply Z.pow_pos_nonneg; lia). nia.
Qed.

(** X21. For a length below 2^53 and a processor count p >= 1 below
    2^1075, [ceil(n / p)] computed through the float is the exact ceiling
    of the quotient, the value [ceil_div] returns. *)
Theorem float_ceil_div_exact (n p : Z) :
  0 ≤ n → n < 2 ^ 53 → 1 ≤ p → p < 2 ^ 1075 →
  ∃ c : Z,
    ceil_div n p = Ok c ∧ ceil_quot_spec n p c
    ∧ float_ceil_div n p = Ceiling c.
Proof.
  intros Hn Hn53 Hp Hp1075. exists (- ((- n) / p)).
  split; [apply ceil_div_nonzero; lia|].
  pose proof (ceil_quot_spec_div n p ltac:(lia)) as Hc.
  split; [done|].
  unfold float_ceil_div.
  rewrite (proj2 (Z.eqb_neq p 0)) by lia.
  destruct (Z.eqb_spec n 0) as [-> | Hn0]; [done|].
  rewrite (Z.abs_eq n), (Z.abs_eq p) by lia.
  rewrite (Z.sgn_pos n), (Z.sgn_pos p) by lia.
  unfold nearest_binary64.
  destruct (scan_exponent n p ltac:(lia) Hn53 Hp Hp1075) as [[He ->] | [He Hfine]].
  - rewrite He. cbn [Z.leb Z.compare].
    rewrite scaled_nonneg_exp by done. cbn [fst snd].
    unfold round_half_even.
    rewrite Z.pow_0_r, Z.mul_1_r, Z.mod_1_r, !Z.div_1_r, Z.mul_0_r.
    change (0 <? 1 * 1) with true. cbv iota.
    rewrite (proj2 (Z.leb_gt (2 ^ 1024) n)); [f_equal; lia|].
    assert (2 ^ 53 ≤ 2 ^ 1024) by (by vm_compute). lia.
  - set (e := Z.max (quot_log2 n p - 52) (-1074)) in *.
    rewrite (proj2 (Z.leb_gt 0 e)) by lia.
    rewrite scaled_neg_exp by done. cbn [fst snd].
    change (0 <? 1 * 1) with true. cbv iota. f_equal.
    set (d := 2 ^ (- e)) in *.
    assert (0 < d) as Hd by (apply Z.pow_pos_nonneg; lia).
    set (m := round_half_even (n * d) p).
    apply (ceil_quot_spec_unique m d); [done | apply ceil_quot_spec_div; lia|].
    destruct Hc as [Hlo Hhi]. set (c := - (- n / p)) in *. split.
    + apply (round_half_even_gt (n * d) p ((c - 1) * d)); [lia | nia | nia].
    + apply (round_half_even_le (n * d) p (c * d)); [lia | nia].
Qed.

Lemma float_ceil_div_exact_witness :
  0 ≤ 8 ∧ 8 < 2 ^ 53 ∧ 1 ≤ 3 ∧ 3 < 2 ^ 1075
  ∧ ∃ c : Z,
      ceil_div 8 3 = Ok c ∧ ceil_quot_spec 8 3 c
      ∧ float_ceil_div 8 3 = Ceiling c.
Proof.
  split; [lia|]. split; [by vm_compute|]. split; [lia|].
  split; [by vm_compute|].
  apply (float_ceil_div_exact 8 3); [lia | by vm_compute | lia | by vm_compute].
Defined.

(** X22. From p = n * 2^1075 on, n >= 1, the float quotient n / p
    underflows to 0.0: [ceil(n / p)] is 0 in the program, where the exact
    ceiling of the quotient is 1. *)
Theorem float_ceil_div_underflow (n p : Z) :
  1 ≤ n → n * 2 ^ 1075 ≤ p →
  float_ceil_div n p = Ceiling 0
  ∧ ceil_div n p = Ok 1 ∧ ceil_quot_spec n p 1.
Proof.
  intros Hn Hp.
  assert (0 < 2 ^ 1075) as Hpow by (by vm_compute).
  assert (n < p) as Hnp by nia.
  split.
  - unfold float_ceil_div.
    rewrite (proj2 (Z.eqb_neq p 0)), (proj2 (Z.eqb_neq n 0)) by lia.
    rewrite (Z.abs_eq n), (Z.abs_eq p) by lia.
    rewrite (Z.sgn_pos n), (Z.sgn_pos p) by lia.
    unfold nearest_binary64.
    assert (quot_log2 n p - 52 ≤ -1074) as Hg.
    { pose proof (quot_log2_upper n p).
      assert (Z.log2 n + 1075 ≤ Z.log2 p); [|lia].
      rewrite Z.add_comm, <- Z.log2_mul_pow2 by lia. by apply Z.log2_le_mono. }
    rewrite (Z.max_r _ _ Hg). cbn [Z.leb Z.compare].
    rewrite scaled_neg_exp by done. cbn [fst snd].
    change (0 <? 1 * 1) with true. cbv iota.
    change (- -1074) with 1074.
    assert (2 ^ 1075 = 2 * 2 ^ 1074) as E by (by vm_compute).
    assert (round_half_even (n * 2 ^ 1074) p = 0) as ->.
    { unfold round_half_even.
      rewrite Z.mod_small, Z.div_small by nia.
      destruct (_ <? _); [done|].
      rewrite (proj2 (Z.ltb_ge p (2 * (n * 2 ^ 1074)))) by nia. done. }
    done.
  - split; [|unfold ceil_quot_spec; lia].
    rewrite ceil_div_nonzero by lia. f_equal.
    apply (ceil_quot_spec_unique n p); [lia | apply ceil_quot_spec_div; lia|].
    unfold ceil_quot_spec. lia.
Qed.

Lemma float_ceil_div_underflow_witness :
  1 ≤ 1 ∧ 1 * 2 ^ 1075 ≤ 2 ^ 1075
  ∧ float_ceil_div 1 (2 ^ 1075) = Ceiling 0
  ∧ ceil_div 1 (2 ^ 1075) = Ok 1 ∧ ceil_quot_spec 1 (2 ^ 1075) 1.
Proof.
  split; [lia|]. split; [by vm_compute|].
  apply (float_ceil_div_underflow 1 (2 ^ 1075)); [lia | by vm_compute].
Defined.
